(** * Day 1, part 2: counting the visits of a 100-position dial to position 0

    A shallow embedding of [day01/part2.py] and the properties of its
    specification.

    Python values are modelled as follows.
    - [int] is [Z] (unbounded, [%] is the floored modulo [Z.modulo]).
    - [str] is [list ascii]; one [ascii] stands for one code point, so the
      model covers text whose code points lie in U+0000..U+00FF.
    - an uncaught exception ends the run: [result] is the error monad with
      the two exceptions the script can raise after the file is read. *)

From Stdlib Require Import ZArith List Ascii String Bool Lia.
Import ListNotations.

Open Scope Z_scope.

(** ** Python strings, exceptions and [int(str)] *)

Module Py.

Definition str : Type := list ascii.

(** A string literal. *)
Definition lit (s : string) : str := list_ascii_of_string s.

Inductive exn : Type :=
| IndexError
| ValueError.

Inductive result (A : Type) : Type :=
| Ok (a : A)
| Raise (e : exn).

Arguments Ok {A} a.
Arguments Raise {A} e.

Definition bind {A B : Type} (r : result A) (k : A -> result B) : result B :=
  match r with
  | Ok a => k a
  | Raise e => Raise e
  end.

Definition raises {A : Type} (r : result A) : Prop := exists e, r = Raise e.

(** [s[0]]: the first character, [IndexError] on the empty string. *)
Definition getitem0 (s : str) : result ascii :=
  match s with
  | [] => Raise IndexError
  | c :: _ => Ok c
  end.

(** [s[1:]]: slicing never raises. *)
Definition slice_from1 (s : str) : str := tl s.

(** Characters [int()] treats as decimal digits (U+0030..U+0039 are the only
    decimal digits below U+0100). *)
Definition is_digit (c : ascii) : bool :=
  let n := nat_of_ascii c in (48 <=? n)%nat && (n <=? 57)%nat.

Definition digit_val (c : ascii) : Z := Z.of_nat (nat_of_ascii c) - 48.

(** Characters [int()] skips around the literal: the ASCII white space
    [\t \n \v \f \r] and the blank, and the two white-space code points
    U+0085 and U+00A0 of the upper half. *)
Definition is_space (c : ascii) : bool :=
  let n := nat_of_ascii c in
  ((9 <=? n)%nat && (n <=? 13)%nat) || (n =? 32)%nat || (n =? 133)%nat || (n =? 160)%nat.

Definition is_underscore (c : ascii) : bool := Ascii.eqb c "_".

(** [c.isspace()], the characters [strip()] removes: the ASCII white space,
    the separators U+001C..U+001F, U+0085 and U+00A0. *)
Definition isspace (c : ascii) : bool :=
  let n := nat_of_ascii c in
  ((9 <=? n)%nat && (n <=? 13)%nat) || ((28 <=? n)%nat && (n <=? 32)%nat) ||
  (n =? 133)%nat || (n =? 160)%nat.

Fixpoint lstrip (s : str) : str :=
  match s with
  | c :: s' => if isspace c then lstrip s' else s
  | [] => []
  end.

(** [s.strip()]. *)
Definition strip (s : str) : str := rev (lstrip (rev (lstrip s))).

(** [s.split("\n")]: the pieces between line feeds, at least one. *)
Fixpoint split_lines (s : str) : list str :=
  match s with
  | [] => [[]]
  | c :: s' =>
      if Ascii.eqb c "010" then [] :: split_lines s'
      else
        match split_lines s' with
        | piece :: pieces => (c :: piece) :: pieces
        | [] => [[c]]
        end
  end.

Fixpoint skip_spaces (s : str) : str :=
  match s with
  | c :: s' => if is_space c then skip_spaces s' else s
  | [] => []
  end.

(** The digits of a literal, read after a first digit: digits, each
    optionally preceded by one underscore.  Returns the value, the number of
    digits and the unread rest; [None] when an underscore is not followed by
    a digit. *)
Fixpoint more_digits (s : str) (acc : Z) (n : nat) : option (Z * nat * str) :=
  match s with
  | [] => Some (acc, n, [])
  | c :: s' =>
      if is_digit c then more_digits s' (10 * acc + digit_val c) (S n)
      else if is_underscore c then
        match s' with
        | d :: s'' =>
            if is_digit d then more_digits s'' (10 * acc + digit_val d) (S n)
            else None
        | [] => None
        end
      else Some (acc, n, s)
  end.

Definition read_digits (s : str) : option (Z * nat * str) :=
  match s with
  | c :: s' => if is_digit c then more_digits s' (digit_val c) 1 else None
  | [] => None
  end.

Definition read_sign (s : str) : bool * str :=
  match s with
  | c :: s' =>
      if Ascii.eqb c "-" then (true, s')
      else if Ascii.eqb c "+" then (false, s')
      else (false, s)
  | [] => (false, [])
  end.

Section Int.

(** The interpreter's limit on the digits of a string converted to [int]
    ([sys.get_int_max_str_digits()], 4300 unless configured; 0 turns the
    limit off).  Literals of at most 640 digits are never refused. *)
Variable int_max_str_digits : nat.

Definition too_many_digits (n : nat) : bool :=
  (640 <? n)%nat && (0 <? int_max_str_digits)%nat && (int_max_str_digits <? n)%nat.

(** [int(s)] for a string [s], base 10: optional white space, an optional
    sign, digits with single underscores between them, optional white
    space; anything else is a [ValueError]. *)
Definition py_int (s : str) : result Z :=
  let (neg, body) := read_sign (skip_spaces s) in
  match read_digits body with
  | None => Raise ValueError
  | Some (v, n, rest) =>
      if too_many_digits n then Raise ValueError
      else
        match skip_spaces rest with
        | [] => Ok (if neg then - v else v)
        | _ :: _ => Raise ValueError
        end
  end.

End Int.

Definition default_max_str_digits : nat := 4300.

End Py.

Import Py.

Notation "x <- c1 ;; c2" := (bind c1 (fun x => c2))
  (at level 61, c1 at next level, right associativity).

(** ** The script *)

Module Part2.

(** The two module-level variables that outlive a loop iteration. *)
Record globals : Type := Globals { dial : Z; zero_count : Z }.

(** Line 14: [(dial + dir + 100) % 100]. *)
Definition next_dial (d dir : Z) : Z := (d + dir + 100) mod 100.

(** Lines 14-16: one iteration of the inner loop. *)
Definition unit_step (dir : Z) (g : globals) : globals :=
  let d := next_dial (dial g) dir in
  {| dial := d;
     zero_count := if d =? 0 then zero_count g + 1 else zero_count g |}.

(** Lines 13-16: [n] iterations of the inner loop. *)
Fixpoint unit_steps (n : nat) (dir : Z) (g : globals) : globals :=
  match n with
  | O => g
  | S n' => unit_steps n' dir (unit_step dir g)
  end.

(** [for _ in range(amount)]: [range] of a negative number is empty. *)
Definition range_loop (amount : Z) (dir : Z) (g : globals) : globals :=
  unit_steps (Z.to_nat amount) dir g.

(** Lines 8-11. *)
Definition dir (c : ascii) : Z := if Ascii.eqb c "L" then -1 else 1.

Section Run.

Variable int_max_str_digits : nat.

(** Lines 8-16: the body of the outer loop. *)
Definition loop_body (line : str) (g : globals) : result globals :=
  c <- getitem0 line ;;
  amount <- py_int int_max_str_digits (slice_from1 line) ;;
  Ok (range_loop amount (dir c) g).

(** Lines 7-16. *)
Fixpoint for_lines (lines : list str) (g : globals) : result globals :=
  match lines with
  | [] => Ok g
  | line :: lines' => g' <- loop_body line g ;; for_lines lines' g'
  end.

(** Lines 4-5: two assignments, whatever the variables held before. *)
Definition init (g : globals) : globals :=
  let g1 := {| dial := 50; zero_count := zero_count g |} in
  {| dial := dial g1; zero_count := 0 |}.

(** Lines 4-16. *)
Definition run (lines : list str) (g : globals) : result globals :=
  for_lines lines (init g).

(** Lines 4-18: the number printed after [Answer:]. *)
Definition main (lines : list str) (g : globals) : result Z :=
  g' <- run lines g ;; Ok (zero_count g').

(** Lines 2-18, on the text read from the file. *)
Definition script (text : str) (g : globals) : result Z :=
  main (split_lines (strip text)) g.

End Run.

End Part2.

Import Part2.

(** ** The specification's reading of the input and of the count *)

Module Spec.

(** *** Lines and commands *)

(** A line of the shape [<char><digits>]: one character, then one or more
    decimal digits. *)
Definition char_digits (line : str) : bool :=
  match line with
  | _ :: (_ :: _) as ds => forallb is_digit ds
  | _ => false
  end.

(** A valid line: of that shape, its digits within the interpreter's limit. *)
Definition valid_line (limit : nat) (line : str) : bool :=
  char_digits line && negb (too_many_digits limit (List.length (tl line))).

(** The base-10 value of a digit string. *)
Definition decimal (ds : str) : Z :=
  fold_left (fun acc c => 10 * acc + digit_val c) ds 0.

(** Step delta of a direction character: [-1] for [L], [+1] for any other. *)
Definition step_delta (c : ascii) : Z := if ascii_dec c "L" then -1 else 1.

Definition delta (line : str) : Z :=
  match line with
  | c :: _ => step_delta c
  | [] => 1
  end.

Definition magnitude (line : str) : nat := Z.to_nat (decimal (tl line)).

(** *** The dial and the count *)

(** The domain of the dial state. *)
Definition in_range (d : Z) : Prop := 0 <= d <= 99.

(** The unit moves of the whole command sequence, in file order. *)
Definition unit_moves (lines : list str) : list Z :=
  flat_map (fun line => repeat (delta line) (magnitude line)) lines.

(** The dial position after each unit move, from position [d]. *)
Fixpoint positions (d : Z) (moves : list Z) : list Z :=
  match moves with
  | [] => []
  | m :: moves' =>
      let d' := (d + m + 100) mod 100 in
      d' :: positions d' moves'
  end.

(** The dial position after all of [moves], from position [d]. *)
Definition final_position (d : Z) (moves : list Z) : Z :=
  fold_left (fun p m => (p + m + 100) mod 100) moves d.

(** The number of unit steps after which the dial, started at 50, is at 0. *)
Definition zero_visits (lines : list str) : Z :=
  Z.of_nat (count_occ Z.eq_dec (positions 50 (unit_moves lines)) 0).

(** After [k] steps of a command that begins in state [g], the dial is at 0
    exactly when [k] is [n], and the counter has grown by one exactly then. *)
Definition zero_only_at (n : nat) (delta : Z) (g : globals) (k : nat) : bool :=
  Bool.eqb (dial (unit_steps k delta g) =? 0) (k =? n)%nat &&
  (zero_count (unit_steps k delta g) =?
     zero_count g + (if (k =? n)%nat then 1 else 0)).

(** Sum of a list of integers. *)
Definition total (l : list Z) : Z := fold_right Z.add 0 l.

(** [line] is the command with direction character [fst cmd] whose remainder
    [int()] reads as [snd cmd]. *)
Definition command_of (limit : nat) (line : str) (cmd : ascii * Z) : Prop :=
  exists rest, line = fst cmd :: rest /\ py_int limit rest = Ok (snd cmd).

(** The signed number of positions a command sequence turns the dial. *)
Definition net_rotation (cmds : list (ascii * Z)) : Z :=
  total (map (fun cmd => step_delta (fst cmd) * Z.max 0 (snd cmd)) cmds).

(** *** The literals of [int()] *)

(** Digits with single underscores between digits; the index is the number
    of digits. *)
Inductive digit_groups : str -> nat -> Prop :=
| dg_last c :
    is_digit c = true -> digit_groups [c] 1
| dg_digit c s n :
    is_digit c = true -> digit_groups s n -> digit_groups (c :: s) (S n)
| dg_under c u s n :
    is_digit c = true -> is_underscore u = true -> digit_groups s n ->
    digit_groups (c :: u :: s) (S n).

Definition sign (s : str) : Prop := s = [] \/ s = lit "+" \/ s = lit "-".

Definition spaces (s : str) : Prop := Forall (fun c => is_space c = true) s.

(** What the language reference says [int(s)] accepts: white space, an
    optional sign, the digits, white space; under a digit limit, no more
    digits than it allows. *)
Definition int_literal (limit : nat) (s : str) : Prop :=
  exists pre sgn body post n,
    s = pre ++ sgn ++ body ++ post /\ spaces pre /\ sign sgn /\
    digit_groups body n /\ too_many_digits limit n = false /\ spaces post.

(** Where the digits of a literal may stop. *)
Definition stops (s : str) : Prop :=
  match s with
  | [] => True
  | c :: _ => is_digit c = false /\ is_underscore c = false
  end.

(** A line on which the loop body raises. *)
Definition bad_line (limit : nat) (line : str) : Prop :=
  line = [] \/ ~ int_literal limit (tl line).

(** The exception a bad line raises. *)
Definition exception_of (line : str) : exn :=
  match line with
  | [] => IndexError
  | _ :: _ => ValueError
  end.

(** *** Inputs *)

(** The puzzle's example input. *)
Definition example_lines : list str :=
  map lit ["L68"; "L30"; "R48"; "L5"; "R60"; "L55"; "L1"; "L99"; "R14"; "L82"]%string.

(** A line of the shape [<char><digits>] with 4301 digits. *)
Definition long_line : str := "R"%char :: repeat "1"%char 4301.

End Spec.

Import Spec.

(** ** Notions for the laws of the reader, of [int()] and of the step loop *)

Module Laws.

(** The line feed. *)
Definition LF : ascii := "010"%char.

(** ["\n".join(lines)]. *)
Fixpoint join_lines (lines : list str) : str :=
  match lines with
  | [] => []
  | [line] => line
  | line :: lines' => line ++ LF :: join_lines lines'
  end.

(** Only characters [strip()] removes. *)
Definition blank (s : str) : Prop := Forall (fun c => isspace c = true) s.

(** Neither the first nor the last character is one [strip()] removes. *)
Definition trimmed (s : str) : bool :=
  match s with
  | [] => true
  | c :: _ => negb (isspace c) && negb (isspace (last s c))
  end.

Definition no_LF (line : str) : Prop := ~ In LF line.

(** How far past 0 the dial [d] is in the direction of travel. *)
Definition past_zero (delta d : Z) : Z :=
  if delta =? -1 then (100 - d) mod 100 else d.

(** The state with [k] more on the counter. *)
Definition add_count (k : Z) (g : globals) : globals :=
  {| dial := dial g; zero_count := zero_count g + k |}.

(** A whole command in one arithmetic step: the dial turned by the amount,
    the counter increased by the number of times 0 is passed. *)
Definition fast_command (cmd : ascii * Z) (g : globals) : globals :=
  let delta := step_delta (fst cmd) in
  let k := Z.max 0 (snd cmd) in
  {| dial := (dial g + delta * k) mod 100;
     zero_count := zero_count g + (past_zero delta (dial g) + k) / 100 |}.

Definition fast_commands (cmds : list (ascii * Z)) (g : globals) : globals :=
  fold_left (fun g cmd => fast_command cmd g) cmds g.

(** The number of unit steps of a command sequence. *)
Definition step_total (cmds : list (ascii * Z)) : Z :=
  total (map (fun cmd => Z.max 0 (snd cmd)) cmds).

(** The value of a literal with sign [sgn] and digits [body]: the decimal
    value of its digit characters, negated under a minus sign. *)
Definition literal_value (sgn body : str) : Z :=
  let v := decimal (filter is_digit body) in
  match sgn with
  | c :: _ => if Ascii.eqb c "-" then - v else v
  | [] => v
  end.

(** The state seen in a mirror: the dial at the same distance on the other
    side of 0. *)
Definition mirror (g : globals) : globals :=
  {| dial := (100 - dial g) mod 100; zero_count := zero_count g |}.

(** Two lines with the same amount text and opposite directions. *)
Definition opposite (line line' : str) : Prop :=
  match line, line' with
  | c :: rest, c' :: rest' => dir c' = - dir c /\ rest' = rest
  | [], [] => True
  | _, _ => False
  end.

End Laws.

Import Laws.

(** ** Character classes *)

Ltac by_cases_on_char c :=
  destruct c as [[] [] [] [] [] [] [] []]; vm_compute; intros;
  try reflexivity; try discriminate; try congruence.

Lemma digit_not_space c : is_digit c = true -> is_space c = false.
Proof. by_cases_on_char c. Qed.

Lemma digit_not_underscore c : is_digit c = true -> is_underscore c = false.
Proof. by_cases_on_char c. Qed.

Lemma digit_not_minus c : is_digit c = true -> Ascii.eqb c "-" = false.
Proof. by_cases_on_char c. Qed.

Lemma digit_not_plus c : is_digit c = true -> Ascii.eqb c "+" = false.
Proof. by_cases_on_char c. Qed.

Lemma space_not_digit c : is_space c = true -> is_digit c = false.
Proof. by_cases_on_char c. Qed.

Lemma space_not_underscore c : is_space c = true -> is_underscore c = false.
Proof. by_cases_on_char c. Qed.

Lemma digit_val_range c : is_digit c = true -> 0 <= digit_val c <= 9.
Proof.
  destruct c as [[] [] [] [] [] [] [] []]; intros H; vm_compute in H;
    try discriminate H; clear H; unfold digit_val; simpl; lia.
Qed.

Lemma too_many_digits_small limit n : (n <= 640)%nat -> too_many_digits limit n = false.
Proof.
  intros Hn. unfold too_many_digits.
  destruct (Nat.ltb_spec 640 n) as [Hlt | _]; [lia | reflexivity].
Qed.

(** A line of the shape with at most 640 digits is valid under every limit. *)
Lemma char_digits_valid_short limit line :
  char_digits line = true -> (List.length (tl line) <= 640)%nat ->
  valid_line limit line = true.
Proof.
  intros Hs Hlen. unfold valid_line.
  rewrite Hs, (too_many_digits_small limit _ Hlen). reflexivity.
Qed.

(** ** The dial *)

Lemma next_dial_in_range d delta : in_range (next_dial d delta).
Proof.
  unfold in_range, next_dial.
  pose proof (Z.mod_pos_bound (d + delta + 100) 100 ltac:(lia)). lia.
Qed.

Lemma next_dial_floored d delta : next_dial d delta = (d + delta) mod 100.
Proof.
  unfold next_dial.
  replace (d + delta + 100) with (d + delta + 1 * 100) by ring.
  apply Z_mod_plus_full.
Qed.

Lemma unit_step_dial delta g : dial (unit_step delta g) = next_dial (dial g) delta.
Proof. reflexivity. Qed.

Lemma unit_steps_add n m delta g :
  unit_steps (n + m) delta g = unit_steps m delta (unit_steps n delta g).
Proof.
  revert g. induction n as [| n IH]; intros g; simpl; [reflexivity | apply IH].
Qed.

Lemma unit_steps_succ n delta g :
  unit_steps (S n) delta g = unit_step delta (unit_steps n delta g).
Proof.
  replace (S n) with (n + 1)%nat by lia. rewrite unit_steps_add. reflexivity.
Qed.

Lemma unit_steps_in_range n delta g :
  in_range (dial g) -> in_range (dial (unit_steps n delta g)).
Proof.
  intros Hg. destruct n as [| n]; [exact Hg |].
  rewrite unit_steps_succ, unit_step_dial. apply next_dial_in_range.
Qed.

(** The dial after [n] unit steps, in closed form. *)
Lemma unit_steps_dial n delta g :
  in_range (dial g) ->
  dial (unit_steps n delta g) = (dial g + delta * Z.of_nat n) mod 100.
Proof.
  intros Hg. induction n as [| n IH].
  - simpl. rewrite Z.mul_0_r, Z.add_0_r. symmetry. apply Z.mod_small.
    unfold in_range in Hg. lia.
  - rewrite unit_steps_succ, unit_step_dial, IH, next_dial_floored.
    rewrite Zplus_mod_idemp_l. f_equal. lia.
Qed.

(** The counter never decreases, and grows by at most one per step. *)
Lemma unit_steps_count_bounds n delta g :
  zero_count g <= zero_count (unit_steps n delta g) <= zero_count g + Z.of_nat n.
Proof.
  induction n as [| n IH].
  - simpl. lia.
  - rewrite unit_steps_succ. unfold unit_step at 1 2. simpl zero_count.
    destruct (next_dial _ _ =? 0); lia.
Qed.

Lemma range_loop_nonpositive amount delta g :
  amount <= 0 -> range_loop amount delta g = g.
Proof.
  intros Ha. unfold range_loop.
  replace (Z.to_nat amount) with O by lia. reflexivity.
Qed.

Lemma init_start g : init g = {| dial := 50; zero_count := 0 |}.
Proof. reflexivity. Qed.

Lemma loop_body_cons limit c rest g amount :
  py_int limit rest = Ok amount ->
  loop_body limit (c :: rest) g = Ok (range_loop amount (dir c) g).
Proof. intros H. unfold loop_body. simpl. rewrite H. reflexivity. Qed.

Lemma loop_body_in_range limit line g g' :
  loop_body limit line g = Ok g' -> in_range (dial g) -> in_range (dial g').
Proof.
  unfold loop_body. destruct line as [| c rest]; simpl; [discriminate |].
  destruct (py_int limit rest) as [amount | e]; simpl; [| discriminate].
  intros [= <-] Hg. apply unit_steps_in_range, Hg.
Qed.

Lemma for_lines_in_range limit lines g g' :
  for_lines limit lines g = Ok g' -> in_range (dial g) -> in_range (dial g').
Proof.
  revert g. induction lines as [| line lines IH]; intros g; simpl.
  - intros [= <-] Hg. exact Hg.
  - destruct (loop_body limit line g) as [g1 | e] eqn:E; simpl; [| discriminate].
    intros H Hg. apply (IH g1 H). eapply loop_body_in_range; eauto.
Qed.

Lemma for_lines_app limit l1 l2 g :
  for_lines limit (l1 ++ l2) g = (g' <- for_lines limit l1 g ;; for_lines limit l2 g').
Proof.
  revert g. induction l1 as [| line l1 IH]; intros g; simpl; [reflexivity |].
  destruct (loop_body limit line g) as [g1 | e]; simpl; [apply IH | reflexivity].
Qed.

(** ** [int()] on digit strings *)

Lemma more_digits_all_digits ds acc n :
  forallb is_digit ds = true ->
  more_digits ds acc n =
    Some (fold_left (fun a c => 10 * a + digit_val c) ds acc, (n + List.length ds)%nat, []).
Proof.
  revert acc n. induction ds as [| d ds IH]; intros acc n H;
    cbn [fold_left forallb more_digits List.length] in *.
  - rewrite Nat.add_0_r. reflexivity.
  - apply andb_true_iff in H as [Hd Hds]. rewrite Hd, (IH _ _ Hds).
    do 3 f_equal. lia.
Qed.

Lemma fold_decimal_nonneg ds acc :
  forallb is_digit ds = true -> 0 <= acc ->
  0 <= fold_left (fun a c => 10 * a + digit_val c) ds acc.
Proof.
  revert acc. induction ds as [| d ds IH]; intros acc H Hacc;
    cbn [fold_left forallb] in *.
  - exact Hacc.
  - apply andb_true_iff in H as [Hd Hds]. apply IH; [exact Hds |].
    pose proof (digit_val_range d Hd). lia.
Qed.

Lemma decimal_nonneg ds : forallb is_digit ds = true -> 0 <= decimal ds.
Proof. intros H. apply fold_decimal_nonneg; [exact H | lia]. Qed.

Lemma read_digits_all_digits ds :
  ds <> [] -> forallb is_digit ds = true ->
  read_digits ds = Some (decimal ds, List.length ds, []).
Proof.
  destruct ds as [| d ds]; [congruence |]. intros _ H. simpl in *.
  apply andb_true_iff in H as [Hd Hds].
  rewrite Hd, (more_digits_all_digits _ _ _ Hds). unfold decimal. simpl.
  reflexivity.
Qed.

(** On one or more digits within the limit, [int()] is the decimal value. *)
Lemma py_int_digits limit ds :
  ds <> [] -> forallb is_digit ds = true ->
  too_many_digits limit (List.length ds) = false ->
  py_int limit ds = Ok (decimal ds).
Proof.
  intros Hne Hds Hlim.
  pose proof (read_digits_all_digits ds Hne Hds) as Hread.
  destruct ds as [| d ds']; [congruence |].
  assert (Hd : is_digit d = true).
  { simpl in Hds. apply andb_true_iff in Hds. tauto. }
  unfold py_int. cbn [skip_spaces]. rewrite (digit_not_space d Hd).
  cbn [read_sign]. rewrite (digit_not_minus d Hd), (digit_not_plus d Hd).
  cbv beta iota. rewrite Hread, Hlim. reflexivity.
Qed.

(** A minus sign before the digits negates the value. *)
Lemma py_int_minus_digits limit ds :
  ds <> [] -> forallb is_digit ds = true ->
  too_many_digits limit (List.length ds) = false ->
  py_int limit ("-"%char :: ds) = Ok (- decimal ds).
Proof.
  intros Hne Hds Hlim. unfold py_int.
  change (skip_spaces ("-"%char :: ds)) with ("-"%char :: ds).
  change (read_sign ("-"%char :: ds)) with (true, ds). cbv beta iota.
  rewrite (read_digits_all_digits ds Hne Hds), Hlim. reflexivity.
Qed.

Lemma py_int_raises_ValueError limit s e : py_int limit s = Raise e -> e = ValueError.
Proof.
  unfold py_int. destruct (read_sign (skip_spaces s)) as [neg body].
  destruct (read_digits body) as [[[v n] rest] |]; [| congruence].
  destruct (too_many_digits limit n); [congruence |].
  destruct (skip_spaces rest); congruence.
Qed.

(** ** [int()] accepts exactly the literals of the language reference *)

Lemma skip_spaces_split s : exists pre, s = pre ++ skip_spaces s /\ spaces pre.
Proof.
  induction s as [| c s [pre [Hs Hpre]]]; simpl.
  - exists []. split; [reflexivity | constructor].
  - destruct (is_space c) eqn:Hc.
    + exists (c :: pre). split; [simpl; congruence | constructor; assumption].
    + exists []. split; [reflexivity | constructor].
Qed.

Lemma skip_spaces_nil s : skip_spaces s = [] <-> spaces s.
Proof.
  split.
  - intros H. destruct (skip_spaces_split s) as [pre [Hs Hpre]].
    rewrite H, app_nil_r in Hs. subst. exact Hpre.
  - intros H. induction H as [| c s Hc _ IH]; simpl; [reflexivity |].
    rewrite Hc. exact IH.
Qed.

Lemma skip_spaces_app pre s : spaces pre -> skip_spaces (pre ++ s) = skip_spaces s.
Proof.
  intros H. induction H as [| c pre Hc _ IH]; simpl; [reflexivity |].
  rewrite Hc. exact IH.
Qed.

Lemma read_sign_split s neg body :
  read_sign s = (neg, body) -> exists sgn, s = sgn ++ body /\ sign sgn.
Proof.
  unfold read_sign, sign. destruct s as [| c s].
  - intros [= <- <-]. exists []. auto.
  - destruct (Ascii.eqb_spec c "-") as [-> |];
      [| destruct (Ascii.eqb_spec c "+") as [-> |]]; intros [= <- <-].
    + exists (lit "-"). auto.
    + exists (lit "+"). auto.
    + exists []. auto.
Qed.

Lemma spaces_stops s : spaces s -> stops s.
Proof.
  intros H. destruct H as [| c s Hc _]; simpl; [exact I |].
  split; [apply space_not_digit | apply space_not_underscore]; exact Hc.
Qed.

Lemma digit_groups_head s n :
  digit_groups s n ->
  exists c s', s = c :: s' /\ is_digit c = true /\ (1 <= n)%nat.
Proof. intros H. destruct H; eexists _, _; repeat split; eauto; lia. Qed.

Lemma more_digits_sound_upto len :
  forall s acc n v m rest c,
    (List.length s <= len)%nat ->
    more_digits s acc n = Some (v, m, rest) -> is_digit c = true ->
    exists body k,
      s = body ++ rest /\ m = (n + k)%nat /\ digit_groups (c :: body) (S k).
Proof.
  induction len as [| len IH]; intros s acc n v m rest c Hlen Hrun Hc.
  - destruct s; [| simpl in Hlen; lia]. simpl in Hrun.
    injection Hrun as <- <- <-. exists [], O.
    repeat split; [lia | constructor; exact Hc].
  - destruct s as [| d s']; cbn [more_digits] in Hrun.
    + injection Hrun as <- <- <-. exists [], O.
      repeat split; [lia | constructor; exact Hc].
    + simpl in Hlen. destruct (is_digit d) eqn:Hd.
      * destruct (IH s' _ _ _ _ _ d ltac:(lia) Hrun Hd) as [body [k [-> [-> Hg]]]].
        exists (d :: body), (S k).
        repeat split; [lia | apply dg_digit; assumption].
      * destruct (is_underscore d) eqn:Hu.
        -- destruct s' as [| d' s'']; [discriminate |].
           destruct (is_digit d') eqn:Hd'; [| discriminate]. simpl in Hlen.
           destruct (IH s'' _ _ _ _ _ d' ltac:(lia) Hrun Hd') as [body [k [-> [-> Hg]]]].
           exists (d :: d' :: body), (S k).
           repeat split; [lia | apply dg_under; assumption].
        -- injection Hrun as <- <- <-. exists [], O.
           repeat split; [lia | constructor; exact Hc].
Qed.

Lemma more_digits_sound s acc n v m rest c :
  more_digits s acc n = Some (v, m, rest) -> is_digit c = true ->
  exists body k,
    s = body ++ rest /\ m = (n + k)%nat /\ digit_groups (c :: body) (S k).
Proof. apply (more_digits_sound_upto (List.length s)). lia. Qed.

Lemma more_digits_complete b k :
  digit_groups b k ->
  forall post acc n, stops post ->
    exists v, more_digits (tl b ++ post) acc n = Some (v, (n + k - 1)%nat, post).
Proof.
  induction 1 as [c Hc | c s k Hc Hs IH | c u s k Hc Hu Hs IH];
    intros post acc n Hpost; simpl tl.
  - exists acc. replace (n + 1 - 1)%nat with n by lia.
    destruct post as [| r post]; simpl; [reflexivity |].
    destruct Hpost as [-> ->]. reflexivity.
  - destruct (digit_groups_head _ _ Hs) as [d [s' [-> [Hd Hk]]]].
    simpl. rewrite Hd.
    destruct (IH post (10 * acc + digit_val d) (S n) Hpost) as [v Hv].
    exists v. simpl in Hv. rewrite Hv. do 3 f_equal. lia.
  - destruct (digit_groups_head _ _ Hs) as [d [s' [-> [Hd Hk]]]].
    simpl. rewrite Hu, Hd.
    assert (Hu' : is_digit u = false).
    { destruct (is_digit u) eqn:E; [| reflexivity].
      rewrite (digit_not_underscore u E) in Hu. discriminate. }
    rewrite Hu'.
    destruct (IH post (10 * acc + digit_val d) (S n) Hpost) as [v Hv].
    exists v. simpl in Hv. rewrite Hv. do 3 f_equal. lia.
Qed.

(** [int(s)] returns exactly on the literals. *)
Lemma py_int_accepts_iff limit s :
  (exists z, py_int limit s = Ok z) <-> int_literal limit s.
Proof.
  split.
  - intros [z Hz]. unfold py_int in Hz.
    destruct (read_sign (skip_spaces s)) as [neg body] eqn:Hsign.
    destruct (read_digits body) as [[[v n] rest] |] eqn:Hdig; [| discriminate].
    destruct (too_many_digits limit n) eqn:Hlim; [discriminate |].
    destruct (skip_spaces rest) eqn:Hrest; [| discriminate].
    destruct (skip_spaces_split s) as [pre [Hs Hpre]].
    destruct (read_sign_split _ _ _ Hsign) as [sgn [Hbody Hsgn]].
    unfold read_digits in Hdig. destruct body as [| c t]; [discriminate |].
    destruct (is_digit c) eqn:Hc; [| discriminate].
    destruct (more_digits_sound _ _ _ _ _ _ c Hdig Hc) as [b [k [-> [-> Hg]]]].
    exists pre, sgn, (c :: b), rest, (S k).
    repeat split; try assumption.
    + rewrite Hs at 1. rewrite Hbody. reflexivity.
    + apply skip_spaces_nil. exact Hrest.
  - intros [pre [sgn [body [post [n [-> [Hpre [Hsgn [Hg [Hlim Hpost]]]]]]]]]].
    destruct (digit_groups_head _ _ Hg) as [c [b [-> [Hc Hn]]]].
    destruct (more_digits_complete _ _ Hg post (digit_val c) 1%nat
                (spaces_stops _ Hpost)) as [v Hv].
    simpl tl in Hv. replace (1 + n - 1)%nat with n in Hv by lia.
    assert (Hdig : read_digits ((c :: b) ++ post) = Some (v, n, post)).
    { simpl. rewrite Hc. exact Hv. }
    apply skip_spaces_nil in Hpost.
    unfold py_int. rewrite (skip_spaces_app _ _ Hpre).
    destruct Hsgn as [-> | [-> | ->]].
    + simpl app at 1. simpl skip_spaces. rewrite (digit_not_space c Hc).
      simpl read_sign.
      rewrite (digit_not_minus c Hc), (digit_not_plus c Hc).
      change (c :: b ++ post) with ((c :: b) ++ post). cbv beta iota.
      rewrite Hdig, Hlim, Hpost. eauto.
    + change (skip_spaces (lit "+" ++ (c :: b) ++ post))
        with ("+"%char :: (c :: b) ++ post).
      change (read_sign ("+"%char :: (c :: b) ++ post))
        with (false, (c :: b) ++ post). cbv beta iota.
      rewrite Hdig, Hlim, Hpost. eauto.
    + change (skip_spaces (lit "-" ++ (c :: b) ++ post))
        with ("-"%char :: (c :: b) ++ post).
      change (read_sign ("-"%char :: (c :: b) ++ post))
        with (true, (c :: b) ++ post). cbv beta iota.
      rewrite Hdig, Hlim, Hpost. eauto.
Qed.

(** ** The count is the number of visits to position 0 *)

Lemma positions_app d a b :
  positions d (a ++ b) = positions d a ++ positions (final_position d a) b.
Proof.
  revert d. induction a as [| m a IH]; intros d; simpl; [reflexivity |].
  rewrite IH. reflexivity.
Qed.

Lemma final_position_app d a b :
  final_position d (a ++ b) = final_position (final_position d a) b.
Proof. apply fold_left_app. Qed.

(** The position after [k+1] moves is the start plus their sum, modulo 100. *)
Lemma positions_nth moves :
  forall d k, (k < List.length moves)%nat ->
    nth k (positions d moves) 0 = (d + total (firstn (S k) moves)) mod 100.
Proof.
  induction moves as [| m moves IH]; intros d k Hk; simpl in Hk; [lia |].
  destruct k as [| k].
  - cbn [positions nth firstn total fold_right].
    replace (d + m + 100) with (d + (m + 0) + 1 * 100) by ring.
    apply Z_mod_plus_full.
  - cbn [positions nth]. rewrite (IH _ k ltac:(lia)).
    rewrite Zplus_mod_idemp_l.
    change (firstn (S (S k)) (m :: moves)) with (m :: firstn (S k) moves).
    cbn [total fold_right]. fold (total (firstn (S k) moves)).
    replace (d + m + 100 + total (firstn (S k) moves))
      with (d + (m + total (firstn (S k) moves)) + 1 * 100) by ring.
    apply Z_mod_plus_full.
Qed.

Lemma unit_steps_positions n delta g :
  dial (unit_steps n delta g) = final_position (dial g) (repeat delta n) /\
  zero_count (unit_steps n delta g) =
    zero_count g +
    Z.of_nat (count_occ Z.eq_dec (positions (dial g) (repeat delta n)) 0).
Proof.
  revert g. induction n as [| n IH]; intros g.
  - simpl. split; [reflexivity | lia].
  - cbn [unit_steps repeat positions]. destruct (IH (unit_step delta g)) as [Hd Hc].
    rewrite Hd, Hc. unfold final_position at 2. cbn [fold_left].
    fold (final_position ((dial g + delta + 100) mod 100) (repeat delta n)).
    cbn [unit_step dial zero_count]. unfold next_dial.
    set (d' := (dial g + delta + 100) mod 100).
    split; [reflexivity |].
    destruct (Z.eqb_spec d' 0) as [E | E].
    + rewrite (count_occ_cons_eq Z.eq_dec _ E). lia.
    + rewrite (count_occ_cons_neq Z.eq_dec _ E). lia.
Qed.

Lemma dir_delta c rest : dir c = delta (c :: rest).
Proof.
  unfold dir, delta, step_delta. destruct (Ascii.eqb_spec c "L") as [-> | Hc].
  - destruct (ascii_dec "L" "L"); [reflexivity | congruence].
  - destruct (ascii_dec c "L"); [congruence | reflexivity].
Qed.

Lemma valid_line_inv limit line :
  valid_line limit line = true ->
  exists c ds,
    line = c :: ds /\ ds <> [] /\ forallb is_digit ds = true /\
    too_many_digits limit (List.length ds) = false.
Proof.
  unfold valid_line, char_digits. intros H. apply andb_true_iff in H as [Hs Hl].
  destruct line as [| c [| d ds]]; try discriminate.
  exists c, (d :: ds). repeat split; [discriminate | exact Hs |].
  apply negb_true_iff in Hl. exact Hl.
Qed.

Lemma loop_body_valid limit line g :
  valid_line limit line = true ->
  loop_body limit line g = Ok (unit_steps (magnitude line) (delta line) g).
Proof.
  intros H. destruct (valid_line_inv _ _ H) as [c [ds [-> [Hne [Hds Hlim]]]]].
  rewrite (loop_body_cons limit c ds g _ (py_int_digits limit ds Hne Hds Hlim)).
  rewrite (dir_delta c ds). reflexivity.
Qed.

Lemma for_lines_valid limit lines :
  Forall (fun line => valid_line limit line = true) lines ->
  forall g, exists g',
    for_lines limit lines g = Ok g' /\
    dial g' = final_position (dial g) (unit_moves lines) /\
    zero_count g' =
      zero_count g +
      Z.of_nat (count_occ Z.eq_dec (positions (dial g) (unit_moves lines)) 0).
Proof.
  induction 1 as [| line lines Hline _ IH]; intros g.
  - exists g. simpl. repeat split. lia.
  - cbn [for_lines unit_moves flat_map]. rewrite (loop_body_valid _ _ g Hline).
    cbn [bind].
    destruct (unit_steps_positions (magnitude line) (delta line) g) as [Hd Hc].
    destruct (IH (unit_steps (magnitude line) (delta line) g)) as [g' [Hrun [Hd' Hc']]].
    exists g'. split; [exact Hrun |].
    fold (unit_moves lines).
    rewrite final_position_app, positions_app, count_occ_app, <- Hd.
    split; [exact Hd' |]. rewrite Hc', Hc. lia.
Qed.

(** C1: on every valid input (each line a character followed by digits that
    [int()] reads), the reported count is the number of unit steps, over all
    commands in file order, after which the dial, started at 50 and moved by
    [(dial + delta + 100) mod 100], is at 0. *)
Theorem reported_count_is_zero_visits limit lines g :
  Forall (fun line => valid_line limit line = true) lines ->
  main limit lines g = Ok (zero_visits lines).
Proof.
  intros H. unfold main, run.
  destruct (for_lines_valid limit lines H (init g)) as [g' [Hrun [_ Hc]]].
  rewrite Hrun. cbn [bind]. rewrite Hc. reflexivity.
Qed.

Lemma reported_count_is_zero_visits_witness :
  Forall (fun line => valid_line default_max_str_digits line = true) example_lines /\
  main default_max_str_digits example_lines (Globals 0 0) = Ok 6.
Proof.
  assert (H : Forall (fun line => valid_line default_max_str_digits line = true)
                example_lines).
  { repeat constructor. }
  split; [exact H |].
  exact (reported_count_is_zero_visits default_max_str_digits example_lines
           (Globals 0 0) H).
Defined.

(** ** Range of the dial *)

Lemma dir_cases c : dir c = -1 \/ dir c = 1.
Proof. unfold dir. destruct (Ascii.eqb c "L"); auto. Qed.

(** C2: the dial is always in [0, 99]: it is set to 50, every unit
    transition with delta -1 or +1 maps [0, 99] into [0, 99], and so the dial
    is in range after any run and after any number of further steps. *)
Theorem dial_always_in_range limit lines g g' n delta :
  run limit lines g = Ok g' -> delta = -1 \/ delta = 1 ->
  dial (init g) = 50 /\
  (forall d, in_range d -> in_range (next_dial d delta)) /\
  in_range (dial g') /\
  in_range (dial (unit_steps n delta g')).
Proof.
  intros Hrun _.
  assert (Hg' : in_range (dial g')).
  { apply (for_lines_in_range limit lines (init g) g' Hrun).
    rewrite init_start. unfold in_range. simpl. lia. }
  split; [reflexivity |].
  split; [intros d _; apply next_dial_in_range |].
  split; [exact Hg' | apply unit_steps_in_range, Hg'].
Qed.

Lemma dial_always_in_range_witness :
  in_range (dial (unit_steps 7 1 {| dial := 0; zero_count := 2 |})).
Proof.
  apply (dial_always_in_range default_max_str_digits
           (map lit ["L68"; "L30"; "R48"]%string) (Globals 0 0)
           {| dial := 0; zero_count := 2 |} 7 1).
  - vm_compute. reflexivity.
  - right. reflexivity.
Defined.

(** C6: for a dial in [0, 99] and a delta of -1 or +1 the operand of the
    modulo is non-negative, and the update is the floored modulo of
    [dial + delta] by 100 (so a truncating remainder gives the same). *)
Theorem offset_keeps_operand_nonnegative d delta :
  in_range d -> delta = -1 \/ delta = 1 ->
  0 <= d + delta + 100 /\
  0 <= next_dial d delta /\
  next_dial d delta = (d + delta) mod 100 /\
  Z.rem (d + delta + 100) 100 = (d + delta) mod 100.
Proof.
  intros Hd Hdelta. unfold in_range in Hd.
  assert (Hop : 0 <= d + delta + 100) by lia.
  repeat split.
  - exact Hop.
  - apply next_dial_in_range.
  - apply next_dial_floored.
  - rewrite Z.rem_mod_nonneg by lia. apply next_dial_floored.
Qed.

Lemma offset_keeps_operand_nonnegative_witness :
  0 <= 0 + -1 + 100 /\ 0 <= next_dial 0 (-1) /\
  next_dial 0 (-1) = (0 + -1) mod 100 /\
  Z.rem (0 + -1 + 100) 100 = (0 + -1) mod 100.
Proof.
  apply (offset_keeps_operand_nonnegative 0 (-1)).
  - unfold in_range. lia.
  - left. reflexivity.
Defined.

(** ** The boundary command and the end-to-end example *)

Lemma zero_only_at_spec n delta g k :
  zero_only_at n delta g k = true ->
  (dial (unit_steps k delta g) = 0 <-> k = n) /\
  zero_count (unit_steps k delta g) =
    zero_count g + (if (k =? n)%nat then 1 else 0).
Proof.
  unfold zero_only_at. intros H. apply andb_true_iff in H as [Hd Hc].
  apply Bool.eqb_prop in Hd. apply Z.eqb_eq in Hc. split; [| exact Hc].
  rewrite <- Z.eqb_eq, Hd. apply Nat.eqb_eq.
Qed.

Lemma zero_only_at_upto n delta g :
  forallb (zero_only_at n delta g) (seq 1 n) = true ->
  forall k, (1 <= k <= n)%nat -> zero_only_at n delta g k = true.
Proof.
  intros H k Hk. rewrite forallb_forall in H. apply H. apply in_seq. lia.
Qed.

(** C5: from the initial position 50 the command [L50] puts the dial on 0
    exactly once, at its 50th and last step: it counts one visit and leaves
    the dial at 0. *)
Theorem L50_reaches_zero_once limit g k :
  (1 <= k <= 50)%nat ->
  loop_body limit (lit "L50") (init g) = Ok {| dial := 0; zero_count := 1 |} /\
  (dial (unit_steps k (-1) (init g)) = 0 <-> k = 50%nat) /\
  zero_count (unit_steps k (-1) (init g)) = (if (k =? 50)%nat then 1 else 0).
Proof.
  intros Hk. split; [vm_compute; reflexivity |].
  rewrite init_start.
  apply (zero_only_at_spec 50 (-1) {| dial := 50; zero_count := 0 |} k).
  apply zero_only_at_upto; [vm_compute; reflexivity | exact Hk].
Qed.

Lemma L50_reaches_zero_once_witness :
  dial (unit_steps 49 (-1) (init (Globals 3 4))) = 0 <-> 49%nat = 50%nat.
Proof.
  apply (L50_reaches_zero_once default_max_str_digits (Globals 3 4) 49). lia.
Defined.

(** C7: on the lines [L50], [R100] the run counts one visit during [L50],
    which ends on 0, one more when [R100] is back on 0 after exactly 100
    steps, and reports 2. *)
Theorem example_L50_R100 limit g k :
  (1 <= k <= 100)%nat ->
  run limit [lit "L50"] g = Ok {| dial := 0; zero_count := 1 |} /\
  (dial (unit_steps k 1 {| dial := 0; zero_count := 1 |}) = 0 <-> k = 100%nat) /\
  zero_count (unit_steps k 1 {| dial := 0; zero_count := 1 |}) =
    1 + (if (k =? 100)%nat then 1 else 0) /\
  run limit [lit "L50"; lit "R100"] g = Ok {| dial := 0; zero_count := 2 |} /\
  main limit [lit "L50"; lit "R100"] g = Ok 2.
Proof.
  intros Hk. split; [vm_compute; reflexivity |].
  destruct (zero_only_at_spec 100 1 {| dial := 0; zero_count := 1 |} k) as [H1 H2].
  { apply zero_only_at_upto; [vm_compute; reflexivity | exact Hk]. }
  split; [exact H1 |]. split; [exact H2 |]. split; vm_compute; reflexivity.
Qed.

Lemma example_L50_R100_witness :
  main default_max_str_digits [lit "L50"; lit "R100"] (Globals 0 0) = Ok 2.
Proof.
  apply (example_L50_R100 default_max_str_digits (Globals 0 0) 100). lia.
Defined.

(** The second end-to-end example of the specification. *)
Example example_R25 limit g :
  run limit [lit "R25"] g = Ok {| dial := 75; zero_count := 0 |}.
Proof. vm_compute. reflexivity. Qed.

(** ** Commands that move nothing *)

Lemma for_lines_skip limit line :
  (forall g, loop_body limit line g = Ok g) ->
  forall before after g,
    for_lines limit (before ++ line :: after) g = for_lines limit (before ++ after) g.
Proof.
  intros Hline before after g. rewrite !for_lines_app.
  destruct (for_lines limit before g) as [g1 | e]; cbn [bind]; [| reflexivity].
  cbn [for_lines]. rewrite Hline. reflexivity.
Qed.

(** C8: a command whose digits parse to 0 performs no unit transition: the
    dial and the counter are unchanged, and the run is the run without it. *)
Theorem magnitude_zero_no_steps limit c rest g :
  py_int limit rest = Ok 0 ->
  range_loop 0 (dir c) g = g /\
  loop_body limit (c :: rest) g = Ok g /\
  forall before after g0,
    for_lines limit (before ++ (c :: rest) :: after) g0 =
    for_lines limit (before ++ after) g0.
Proof.
  intros H. split; [reflexivity |].
  assert (Hbody : forall g1, loop_body limit (c :: rest) g1 = Ok g1).
  { intros g1. rewrite (loop_body_cons limit c rest g1 0 H). reflexivity. }
  split; [apply Hbody | apply for_lines_skip, Hbody].
Qed.

Lemma magnitude_zero_no_steps_witness :
  loop_body default_max_str_digits (lit "L000") {| dial := 17; zero_count := 4 |} =
  Ok {| dial := 17; zero_count := 4 |}.
Proof.
  apply (magnitude_zero_no_steps default_max_str_digits "L"%char (lit "000")
           {| dial := 17; zero_count := 4 |}).
  vm_compute. reflexivity.
Defined.

(** C10: a line whose remainder [int()] reads as a negative integer, such as
    [L-5], raises nothing and performs no unit step: the dial and the
    counter are unchanged. *)
Theorem negative_amount_no_steps limit c rest amount g :
  py_int limit rest = Ok amount -> amount < 0 ->
  range_loop amount (dir c) g = g /\
  loop_body limit (c :: rest) g = Ok g.
Proof.
  intros H Hneg.
  assert (Hloop : range_loop amount (dir c) g = g).
  { apply range_loop_nonpositive. lia. }
  split; [exact Hloop |].
  rewrite (loop_body_cons limit c rest g amount H), Hloop. reflexivity.
Qed.

Lemma negative_amount_no_steps_witness :
  py_int default_max_str_digits (lit "-5") = Ok (-5) /\
  loop_body default_max_str_digits (lit "L-5") {| dial := 50; zero_count := 0 |} =
  Ok {| dial := 50; zero_count := 0 |}.
Proof.
  split; [vm_compute; reflexivity |].
  apply (negative_amount_no_steps default_max_str_digits "L"%char (lit "-5") (-5)
           {| dial := 50; zero_count := 0 |}).
  - vm_compute. reflexivity.
  - lia.
Defined.

(** ** Determinism *)

(** C9: the result depends on the input lines alone: whatever the two
    variables held before a run, the run ends with the same dial and count
    (or the same exception), so a second run repeats the first. *)
Theorem run_deterministic limit lines g1 g2 :
  run limit lines g1 = run limit lines g2 /\
  main limit lines g1 = main limit lines g2 /\
  (forall g', run limit lines g1 = Ok g' -> run limit lines g' = Ok g').
Proof.
  assert (H : forall g g', run limit lines g = run limit lines g').
  { intros g g'. unfold run. rewrite !init_start. reflexivity. }
  split; [apply H |]. split.
  - unfold main. rewrite (H g1 g2). reflexivity.
  - intros g' Hrun. rewrite (H g' g1). exact Hrun.
Qed.

Lemma run_deterministic_witness :
  run default_max_str_digits example_lines {| dial := 32; zero_count := 6 |} =
  Ok {| dial := 32; zero_count := 6 |}.
Proof.
  apply (run_deterministic default_max_str_digits example_lines
           (Globals 0 0) (Globals 0 0)).
  vm_compute. reflexivity.
Defined.

(** ** Direction of a command *)

Lemma dir_step_delta c : dir c = step_delta c.
Proof. apply (dir_delta c []). Qed.

Lemma for_lines_net_rotation limit lines cmds :
  Forall2 (command_of limit) lines cmds ->
  forall g, in_range (dial g) ->
    exists g',
      for_lines limit lines g = Ok g' /\
      dial g' = (dial g + net_rotation cmds) mod 100.
Proof.
  induction 1 as [| line [c n] lines cmds [rest [-> Hn]] _ IH]; intros g Hg.
  - exists g. split; [reflexivity |]. unfold net_rotation. simpl.
    rewrite Z.add_0_r. symmetry. apply Z.mod_small. unfold in_range in Hg. lia.
  - simpl in Hn. cbn [fst for_lines].
    rewrite (loop_body_cons limit c rest g n Hn). cbn [bind].
    destruct (IH (range_loop n (dir c) g)) as [g' [Hrun Hd]].
    { apply unit_steps_in_range, Hg. }
    exists g'. split; [exact Hrun |]. rewrite Hd. unfold range_loop.
    rewrite (unit_steps_dial _ _ _ Hg), Zplus_mod_idemp_l, dir_step_delta.
    change (net_rotation ((c, n) :: cmds))
      with (step_delta c * Z.max 0 n + net_rotation cmds).
    replace (Z.of_nat (Z.to_nat n)) with (Z.max 0 n) by lia.
    f_equal. ring.
Qed.

(** C4: the step delta is -1 exactly when the first character is [L] and +1
    for every other character, and every command of a run is applied with
    the delta of its own first character. *)
Theorem direction_mapping limit lines cmds g :
  Forall2 (command_of limit) lines cmds ->
  (forall c, (dir c = -1 <-> c = "L"%char) /\ (c <> "L"%char -> dir c = 1)) /\
  (forall c rest n g0,
     py_int limit rest = Ok n ->
     loop_body limit (c :: rest) g0 =
     Ok (unit_steps (Z.to_nat n) (if ascii_dec c "L" then -1 else 1) g0)) /\
  exists g',
    run limit lines g = Ok g' /\ dial g' = (50 + net_rotation cmds) mod 100.
Proof.
  intros H. split; [| split].
  - intros c. unfold dir. destruct (Ascii.eqb_spec c "L") as [-> | Hc].
    + split; [tauto | congruence].
    + split; [split; [discriminate | congruence] | reflexivity].
  - intros c rest n g0 Hn. rewrite (loop_body_cons limit c rest g0 n Hn).
    rewrite dir_step_delta. reflexivity.
  - apply (for_lines_net_rotation limit lines cmds H (init g)).
    rewrite init_start. unfold in_range. simpl. lia.
Qed.

Lemma direction_mapping_witness :
  exists g',
    run default_max_str_digits (map lit ["X15"; "L65"; "R7"]%string) (Globals 0 0) = Ok g' /\
    dial g' = (50 + net_rotation [("X"%char, 15); ("L"%char, 65); ("R"%char, 7)]) mod 100.
Proof.
  apply (direction_mapping default_max_str_digits
           (map lit ["X15"; "L65"; "R7"]%string)
           [("X"%char, 15); ("L"%char, 65); ("R"%char, 7)] (Globals 0 0)).
  repeat constructor.
  - exists (lit "15"). split; vm_compute; reflexivity.
  - exists (lit "65"). split; vm_compute; reflexivity.
  - exists (lit "7"). split; vm_compute; reflexivity.
Defined.

(** ** When a run raises *)

Lemma loop_body_raises_iff limit line g :
  raises (loop_body limit line g) <-> bad_line limit line.
Proof.
  unfold bad_line, raises. destruct line as [| c rest].
  - split; [auto | intros _; exists IndexError; reflexivity].
  - simpl tl. rewrite <- py_int_accepts_iff. unfold loop_body. cbn [getitem0 bind slice_from1 tl].
    destruct (py_int limit rest) as [n | e]; cbn [bind].
    + split.
      * intros [e He]. discriminate.
      * intros [H | H]; [discriminate | exfalso; apply H; eauto].
    + split.
      * intros _. right. intros [z Hz]. discriminate.
      * intros _. eauto.
Qed.

Lemma for_lines_raises_iff limit lines :
  forall g, raises (for_lines limit lines g) <-> Exists (bad_line limit) lines.
Proof.
  induction lines as [| line lines IH]; intros g; cbn [for_lines].
  - split.
    + intros [e He]. discriminate.
    + intros H. inversion H.
  - pose proof (loop_body_raises_iff limit line g) as Hline.
    destruct (loop_body limit line g) as [g1 | e]; cbn [bind].
    + rewrite IH. split.
      * intros H. apply Exists_cons_tl, H.
      * intros H. inversion H as [? ? Hbad | ? ? Htl]; subst; [| exact Htl].
        apply Hline in Hbad. destruct Hbad as [e He]. discriminate.
    + split.
      * intros _. apply Exists_cons_hd, Hline. exists e. reflexivity.
      * intros _. exists e. reflexivity.
Qed.

Lemma main_raises_iff limit lines g :
  raises (main limit lines g) <-> raises (for_lines limit lines (init g)).
Proof.
  unfold main, run, raises.
  destruct (for_lines limit lines (init g)) as [g' | e]; cbn [bind].
  - split; intros [e He]; discriminate.
  - split; intros _; eauto.
Qed.

Lemma loop_body_exception limit line g e :
  loop_body limit line g = Raise e -> e = exception_of line.
Proof.
  destruct line as [| c rest]; unfold loop_body; cbn [getitem0 bind slice_from1 tl].
  - intros [= <-]. reflexivity.
  - destruct (py_int limit rest) as [n | e'] eqn:E; cbn [bind]; [discriminate |].
    intros [= <-]. apply (py_int_raises_ValueError limit rest e' E).
Qed.

(** The first bad line ends the run, with its exception. *)
Lemma for_lines_first_bad_line limit lines :
  forall g e, for_lines limit lines g = Raise e ->
    exists before line after,
      lines = before ++ line :: after /\
      Forall (fun l => ~ bad_line limit l) before /\
      bad_line limit line /\ e = exception_of line.
Proof.
  induction lines as [| line lines IH]; intros g e; cbn [for_lines];
    [discriminate |].
  pose proof (loop_body_raises_iff limit line g) as Hline.
  destruct (loop_body limit line g) as [g1 | e0] eqn:E; cbn [bind].
  - intros H. destruct (IH g1 e H) as [before [l [after [-> [Hb [Hl He]]]]]].
    exists (line :: before), l, after. repeat split; try assumption.
    constructor; [| exact Hb].
    intros Hbad. apply Hline in Hbad. destruct Hbad as [e1 He1]. discriminate.
  - intros [= <-]. exists [], line, lines. repeat split.
    + constructor.
    + apply Hline. exists e0. reflexivity.
    + apply (loop_body_exception limit line g e0 E).
Qed.

(** C3, as the code has it: the run raises exactly when some line is empty
    or its remainder is not a literal [int()] accepts (white space, an
    optional sign, digits with single underscores between them, white space,
    within the digit limit); the first such line decides the exception,
    [IndexError] when it is empty and [ValueError] otherwise; on every input
    whose lines are a character followed by digits within the limit, nothing
    is raised. *)
Theorem run_raises_iff_bad_line limit lines g :
  (raises (main limit lines g) <-> Exists (bad_line limit) lines) /\
  (forall e, main limit lines g = Raise e ->
     exists before line after,
       lines = before ++ line :: after /\
       Forall (fun l => ~ bad_line limit l) before /\
       bad_line limit line /\ e = exception_of line) /\
  (Forall (fun line => valid_line limit line = true) lines ->
   exists n, main limit lines g = Ok n).
Proof.
  split; [| split].
  - rewrite main_raises_iff. apply for_lines_raises_iff.
  - intros e. unfold main, run.
    destruct (for_lines limit lines (init g)) as [g' | e'] eqn:E; cbn [bind];
      [discriminate |].
    intros [= <-]. apply (for_lines_first_bad_line limit lines (init g) e' E).
  - intros H. unfold main, run.
    destruct (for_lines_valid limit lines H (init g)) as [g' [Hrun _]].
    rewrite Hrun. cbn [bind]. eauto.
Qed.

Lemma run_raises_iff_bad_line_witness :
  exists n, main default_max_str_digits example_lines (Globals 0 0) = Ok n.
Proof.
  apply (run_raises_iff_bad_line default_max_str_digits example_lines (Globals 0 0)).
  repeat constructor.
Defined.

(** The claim fails in both directions: [L-5] is not of the shape
    [<char><digits>] and raises nothing, and a line of that shape with 4301
    digits raises under the default digit limit. *)
Lemma format_error_claim_fails :
  (char_digits (lit "L-5") = false /\
   main default_max_str_digits [lit "L-5"] (Globals 0 0) = Ok 0) /\
  (char_digits long_line = true /\
   main default_max_str_digits [long_line] (Globals 0 0) = Raise ValueError).
Proof. repeat split; vm_compute; reflexivity. Qed.

(** ** From the file's text to the lines *)

Lemma split_lines_not_nil s : split_lines s <> [].
Proof.
  destruct s as [| c s]; simpl; [discriminate |].
  destruct (Ascii.eqb c "010"); [discriminate |].
  destruct (split_lines s); discriminate.
Qed.

(** An empty file is the single empty line, on which [line[0]] raises. *)
Example script_empty_file limit g : script limit [] g = Raise IndexError.
Proof. reflexivity. Qed.

Example script_L50_R100 limit g :
  script limit (lit "L50" ++ ["010"%char] ++ lit "R100" ++ ["010"%char]) g = Ok 2.
Proof. vm_compute. reflexivity. Qed.

Example script_signed_amount limit g :
  script limit (lit "L-5" ++ ["010"%char]) g = Ok 0.
Proof. vm_compute. reflexivity. Qed.

(** ** Laws of the reader: [strip()] and [split("\n")] *)

Lemma lstrip_split s : exists pre, s = pre ++ lstrip s /\ blank pre.
Proof.
  induction s as [| c s [pre [Hs Hpre]]]; simpl.
  - exists []. split; [reflexivity | constructor].
  - destruct (isspace c) eqn:Hc.
    + exists (c :: pre). split; [simpl; congruence | constructor; assumption].
    + exists []. split; [reflexivity | constructor].
Qed.

Lemma lstrip_blank_app pre s : blank pre -> lstrip (pre ++ s) = lstrip s.
Proof.
  intros H. induction H as [| c pre Hc _ IH]; simpl; [reflexivity |].
  rewrite Hc. exact IH.
Qed.

Lemma lstrip_blank s : blank s -> lstrip s = [].
Proof.
  intros H. rewrite <- (app_nil_r s). rewrite (lstrip_blank_app s [] H).
  reflexivity.
Qed.

Lemma lstrip_head_inv s c t : lstrip s = c :: t -> isspace c = false.
Proof.
  induction s as [| d s IH]; simpl; [discriminate |].
  destruct (isspace d) eqn:Hd; [exact IH | intros [= <- _]; exact Hd].
Qed.

Lemma blank_app a b : blank a -> blank b -> blank (a ++ b).
Proof. intros Ha Hb. apply Forall_app. split; assumption. Qed.

Lemma blank_rev s : blank s -> blank (rev s).
Proof. apply Forall_rev. Qed.

Lemma rev_head_last (c : ascii) t :
  rev (c :: t) = last (c :: t) c :: rev (removelast (c :: t)).
Proof.
  assert (Hne : c :: t <> []) by discriminate.
  rewrite (app_removelast_last c Hne) at 1.
  rewrite rev_app_distr. reflexivity.
Qed.

Lemma strip_padded pre m post :
  blank pre -> blank post -> trimmed m = true -> strip (pre ++ m ++ post) = m.
Proof.
  intros Hpre Hpost Hm. unfold strip. rewrite (lstrip_blank_app _ _ Hpre).
  destruct m as [| c t].
  - simpl app. rewrite (lstrip_blank _ Hpost). reflexivity.
  - unfold trimmed in Hm. apply andb_true_iff in Hm as [Hc Hl].
    apply negb_true_iff in Hc, Hl.
    replace (lstrip ((c :: t) ++ post)) with ((c :: t) ++ post)
      by (simpl; rewrite Hc; reflexivity).
    rewrite rev_app_distr, (lstrip_blank_app _ _ (blank_rev _ Hpost)).
    rewrite rev_head_last. cbn [lstrip]. rewrite Hl.
    rewrite <- rev_head_last. apply rev_involutive.
Qed.

Lemma strip_split s :
  exists pre post,
    s = pre ++ strip s ++ post /\ blank pre /\ blank post /\
    trimmed (strip s) = true.
Proof.
  destruct (lstrip_split s) as [pre [Hs Hpre]].
  destruct (lstrip_split (rev (lstrip s))) as [q [Hx Hq]].
  assert (Hx' : lstrip s = strip s ++ rev q).
  { unfold strip. rewrite <- rev_app_distr, <- Hx. symmetry.
    apply rev_involutive. }
  exists pre, (rev q). repeat split.
  - rewrite Hs at 1. rewrite Hx'. reflexivity.
  - exact Hpre.
  - apply blank_rev, Hq.
  - destruct (strip s) as [| c t] eqn:E; [reflexivity |].
    unfold trimmed. apply andb_true_iff. split; apply negb_true_iff.
    + apply (lstrip_head_inv s c (t ++ rev q)). rewrite Hx'. reflexivity.
    + unfold strip in E.
      destruct (lstrip (rev (lstrip s))) as [| d y] eqn:Ey; [discriminate |].
      simpl rev in E. rewrite <- E, last_last.
      apply (lstrip_head_inv _ _ _ Ey).
Qed.

(** [strip()] is the one trimmed middle of the text between removable
    characters. *)
Theorem strip_characterised s m :
  strip s = m <->
  exists pre post,
    s = pre ++ m ++ post /\ blank pre /\ blank post /\ trimmed m = true.
Proof.
  split.
  - intros <-. apply strip_split.
  - intros [pre [post [-> [Hpre [Hpost Hm]]]]]. apply strip_padded; assumption.
Qed.

Lemma strip_characterised_witness :
  strip (lit " L50 ") = lit "L50".
Proof.
  apply (strip_characterised (lit " L50 ") (lit "L50")).
  exists (lit " "), (lit " ").
  repeat split; repeat constructor.
Defined.

Lemma strip_pad_irrelevant pre text post :
  blank pre -> blank post -> strip (pre ++ text ++ post) = strip text.
Proof.
  intros Hpre Hpost.
  destruct (strip_split text) as [p [q [Ht [Hp [Hq Hm]]]]].
  rewrite Ht at 1.
  replace (pre ++ (p ++ strip text ++ q) ++ post)
    with ((pre ++ p) ++ strip text ++ (q ++ post))
    by (rewrite <- !app_assoc; reflexivity).
  apply strip_padded; [apply blank_app | apply blank_app |]; assumption.
Qed.

(** A file of nothing but removable characters (an empty file too) is read
    as one empty line, on which [line[0]] raises [IndexError]. *)
Theorem blank_file_raises_IndexError limit text g :
  blank text -> script limit text g = Raise IndexError.
Proof.
  intros H. unfold script.
  replace (strip text) with (@nil ascii); [reflexivity |].
  symmetry. rewrite <- (app_nil_r text).
  apply (strip_padded text [] [] H); [constructor | reflexivity].
Qed.

Lemma blank_file_raises_IndexError_witness :
  script default_max_str_digits [LF; " "%char; LF] (Globals 0 0) = Raise IndexError.
Proof.
  apply (blank_file_raises_IndexError default_max_str_digits
           [LF; " "%char; LF] (Globals 0 0)).
  repeat constructor.
Defined.

(** Removable characters before and after the text of the file (a final
    line feed, blank lines at either end) do not change the result. *)
Theorem script_ignores_padding limit pre text post g :
  blank pre -> blank post ->
  script limit (pre ++ text ++ post) g = script limit text g.
Proof.
  intros Hpre Hpost. unfold script.
  rewrite (strip_pad_irrelevant pre text post Hpre Hpost). reflexivity.
Qed.

Lemma script_ignores_padding_witness :
  script default_max_str_digits ([LF] ++ lit "L50" ++ [LF; LF]) (Globals 0 0) =
  script default_max_str_digits (lit "L50") (Globals 0 0).
Proof.
  apply (script_ignores_padding default_max_str_digits [LF] (lit "L50") [LF; LF]
           (Globals 0 0)); repeat constructor.
Defined.

Lemma join_lines_cons line lines :
  lines <> [] -> join_lines (line :: lines) = line ++ LF :: join_lines lines.
Proof. destruct lines; [congruence | reflexivity]. Qed.

Lemma join_split s : join_lines (split_lines s) = s.
Proof.
  induction s as [| c s IH]; [reflexivity |]. cbn [split_lines].
  destruct (Ascii.eqb_spec c "010") as [-> | Hc].
  - rewrite join_lines_cons by apply split_lines_not_nil. rewrite IH. reflexivity.
  - destruct (split_lines s) as [| piece pieces] eqn:E.
    + destruct (split_lines_not_nil s E).
    + destruct pieces as [| p ps]; simpl in *; congruence.
Qed.

Lemma split_lines_no_LF s : Forall no_LF (split_lines s).
Proof.
  induction s as [| c s IH]; cbn [split_lines].
  - constructor; [intros [] | constructor].
  - destruct (Ascii.eqb_spec c "010") as [-> | Hc].
    + constructor; [intros [] | exact IH].
    + destruct (split_lines s) as [| piece pieces] eqn:E;
        [destruct (split_lines_not_nil s E) |].
      apply Forall_cons_iff in IH as [Hp Hps]. constructor; [| exact Hps].
      intros [H | H]; [apply Hc; exact H | exact (Hp H)].
Qed.

Lemma split_no_LF line : no_LF line -> split_lines line = [line].
Proof.
  induction line as [| c line IH]; intros H; [reflexivity |].
  cbn [split_lines]. destruct (Ascii.eqb_spec c "010") as [-> | Hc].
  - exfalso. apply H. left. reflexivity.
  - rewrite IH; [reflexivity |]. intros Hin. apply H. right. exact Hin.
Qed.

Lemma split_app_LF line s :
  no_LF line -> split_lines (line ++ LF :: s) = line :: split_lines s.
Proof.
  induction line as [| c line IH]; intros H; [reflexivity |].
  cbn [app split_lines]. destruct (Ascii.eqb_spec c "010") as [-> | Hc].
  - exfalso. apply H. left. reflexivity.
  - rewrite IH; [reflexivity |]. intros Hin. apply H. right. exact Hin.
Qed.

Lemma split_join lines :
  lines <> [] -> Forall no_LF lines -> split_lines (join_lines lines) = lines.
Proof.
  induction lines as [| line lines IH]; intros Hne H; [congruence |].
  apply Forall_cons_iff in H as [Hline Hlines].
  destruct lines as [| l ls].
  - apply split_no_LF, Hline.
  - rewrite join_lines_cons by discriminate.
    rewrite (split_app_LF _ _ Hline), IH; [reflexivity | discriminate | exact Hlines].
Qed.

(** [split("\n")] and [join] are inverse: the pieces are the one non-empty
    list of strings free of line feeds that joins back to the text. *)
Theorem split_lines_characterised s lines :
  split_lines s = lines <->
  lines <> [] /\ Forall no_LF lines /\ join_lines lines = s.
Proof.
  split.
  - intros <-.
    split; [apply split_lines_not_nil |].
    split; [apply split_lines_no_LF | apply join_split].
  - intros [Hne [H <-]]. apply split_join; assumption.
Qed.

Lemma split_lines_characterised_witness :
  split_lines (lit "L50" ++ LF :: lit "R100") = [lit "L50"; lit "R100"].
Proof.
  apply (split_lines_characterised (lit "L50" ++ LF :: lit "R100")
           [lit "L50"; lit "R100"]).
  split; [discriminate |]. split; [| reflexivity].
  repeat constructor; unfold no_LF; simpl; intros H;
    repeat (destruct H as [H | H]; [discriminate H |]); exact H.
Defined.

(** The number of lines is one more than the number of line feeds. *)
Lemma split_lines_length s :
  List.length (split_lines s) = S (count_occ ascii_dec s LF).
Proof.
  induction s as [| c s IH]; [reflexivity |]. cbn [split_lines].
  destruct (Ascii.eqb_spec c "010") as [-> | Hc].
  - rewrite count_occ_cons_eq by reflexivity. simpl. rewrite IH. reflexivity.
  - rewrite count_occ_cons_neq by exact Hc.
    destruct (split_lines s); simpl in *; [discriminate | exact IH].
Qed.



(** ** Laws of the step loop *)

Lemma step_delta_cases c : step_delta c = -1 \/ step_delta c = 1.
Proof. unfold step_delta. destruct (ascii_dec c "L"); auto. Qed.

Lemma past_zero_range delta d : in_range d -> in_range (past_zero delta d).
Proof.
  unfold in_range, past_zero. intros Hd.
  destruct (delta =? -1); [| exact Hd].
  pose proof (Z.mod_pos_bound (100 - d) 100 ltac:(lia)). lia.
Qed.

(** One more step adds one to the quotient exactly when it lands on 0. *)
Lemma crossing_step delta d n :
  in_range d -> delta = -1 \/ delta = 1 -> 0 <= n ->
  (past_zero delta d + n) / 100 +
    (if (d + delta * n + delta) mod 100 =? 0 then 1 else 0) =
  (past_zero delta d + (n + 1)) / 100.
Proof.
  unfold in_range. intros Hd [-> | ->] Hn;
    [change (past_zero (-1) d) with ((100 - d) mod 100)
    | change (past_zero 1 d) with d].
  - destruct (Z.eqb_spec ((d + -1 * n + -1) mod 100) 0) as [E | E];
      Z.div_mod_to_equations; lia.
  - destruct (Z.eqb_spec ((d + 1 * n + 1) mod 100) 0) as [E | E];
      Z.div_mod_to_equations; lia.
Qed.

Lemma unit_steps_closed_form n delta g :
  in_range (dial g) -> delta = -1 \/ delta = 1 ->
  unit_steps n delta g =
  {| dial := (dial g + delta * Z.of_nat n) mod 100;
     zero_count := zero_count g + (past_zero delta (dial g) + Z.of_nat n) / 100 |}.
Proof.
  intros Hg Hdelta. induction n as [| n IH].
  - cbn [unit_steps Z.of_nat]. rewrite Z.mul_0_r, !Z.add_0_r.
    pose proof (past_zero_range delta _ Hg) as Hp. unfold in_range in Hg, Hp.
    rewrite Z.mod_small, Z.div_small, Z.add_0_r by lia.
    destruct g; reflexivity.
  - rewrite unit_steps_succ, IH. unfold unit_step. cbn [dial zero_count].
    rewrite next_dial_floored, Zplus_mod_idemp_l.
    pose proof (crossing_step delta (dial g) (Z.of_nat n) Hg Hdelta ltac:(lia))
      as Hstep.
    replace (Z.of_nat (S n)) with (Z.of_nat n + 1) by lia.
    rewrite <- Hstep.
    destruct ((dial g + delta * Z.of_nat n + delta) mod 100 =? 0);
      f_equal; try (f_equal; ring); ring.
Qed.

Lemma range_loop_closed amount delta g :
  in_range (dial g) -> delta = -1 \/ delta = 1 ->
  range_loop amount delta g =
  {| dial := (dial g + delta * Z.max 0 amount) mod 100;
     zero_count :=
       zero_count g + (past_zero delta (dial g) + Z.max 0 amount) / 100 |}.
Proof.
  intros Hg Hdelta. unfold range_loop.
  rewrite (unit_steps_closed_form _ _ _ Hg Hdelta).
  replace (Z.of_nat (Z.to_nat amount)) with (Z.max 0 amount) by lia.
  reflexivity.
Qed.

(** The inner loop in closed form: the dial is turned by the amount modulo
    100, and the counter grows by the number of multiples of 100 the dial
    passes, counted from how far past 0 it starts in its direction. *)
Theorem range_loop_closed_form amount delta g :
  in_range (dial g) -> delta = -1 \/ delta = 1 ->
  range_loop amount delta g =
  {| dial := (dial g + delta * Z.max 0 amount) mod 100;
     zero_count :=
       zero_count g + (past_zero delta (dial g) + Z.max 0 amount) / 100 |}.
Proof.
  intros Hg Hdelta. unfold range_loop.
  rewrite (unit_steps_closed_form (Z.to_nat amount) delta g Hg Hdelta).
  f_equal; repeat f_equal; lia.
Qed.

Lemma range_loop_closed_form_witness :
  range_loop 1000 (-1) {| dial := 50; zero_count := 0 |} =
  {| dial := 50; zero_count := 10 |}.
Proof.
  apply (range_loop_closed_form 1000 (-1) {| dial := 50; zero_count := 0 |}).
  - unfold in_range. simpl. lia.
  - left. reflexivity.
Defined.

(** A full turn: 100 further steps in either direction bring the dial back
    and count exactly one more visit to 0. *)
Theorem full_turn_counts_once amount delta g :
  in_range (dial g) -> delta = -1 \/ delta = 1 -> 0 <= amount ->
  range_loop (amount + 100) delta g = add_count 1 (range_loop amount delta g).
Proof.
  intros Hg Hdelta Ha.
  rewrite !(range_loop_closed _ _ _ Hg Hdelta). unfold add_count.
  cbn [dial zero_count].
  replace (Z.max 0 (amount + 100)) with (Z.max 0 amount + 1 * 100) by lia.
  rewrite Z.add_assoc, Z.div_add by lia.
  replace (dial g + delta * (Z.max 0 amount + 1 * 100))
    with (dial g + delta * Z.max 0 amount + delta * 100) by ring.
  rewrite Z_mod_plus_full.
  f_equal. ring.
Qed.

Lemma full_turn_counts_once_witness :
  range_loop (7 + 100) 1 {| dial := 99; zero_count := 3 |} =
  add_count 1 (range_loop 7 1 {| dial := 99; zero_count := 3 |}).
Proof.
  apply (full_turn_counts_once 7 1 {| dial := 99; zero_count := 3 |}).
  - unfold in_range. simpl. lia.
  - right. reflexivity.
  - lia.
Defined.

Lemma loop_body_fast limit line cmd g :
  command_of limit line cmd -> in_range (dial g) ->
  loop_body limit line g = Ok (fast_command cmd g).
Proof.
  intros [rest [-> Hn]] Hg. rewrite (loop_body_cons limit _ rest g _ Hn).
  rewrite dir_step_delta.
  rewrite (range_loop_closed _ _ _ Hg (step_delta_cases (fst cmd))).
  reflexivity.
Qed.

Lemma fast_command_in_range cmd g : in_range (dial (fast_command cmd g)).
Proof.
  unfold fast_command, in_range. cbn [dial].
  match goal with |- 0 <= ?x mod 100 <= 99 =>
    pose proof (Z.mod_pos_bound x 100 ltac:(lia)) end. lia.
Qed.

Lemma for_lines_fast limit lines cmds :
  Forall2 (command_of limit) lines cmds ->
  forall g, in_range (dial g) ->
    for_lines limit lines g = Ok (fast_commands cmds g).
Proof.
  induction 1 as [| line cmd lines cmds Hcmd _ IH]; intros g Hg; [reflexivity |].
  cbn [for_lines]. rewrite (loop_body_fast limit line cmd g Hcmd Hg). cbn [bind].
  apply IH, fast_command_in_range.
Qed.

(** The step-by-step run equals the run that treats each command in one
    arithmetic step. *)
Theorem run_equals_fast_commands limit lines cmds g :
  Forall2 (command_of limit) lines cmds ->
  run limit lines g = Ok (fast_commands cmds (init g)) /\
  main limit lines g = Ok (zero_count (fast_commands cmds (init g))).
Proof.
  intros H.
  assert (Hrun : run limit lines g = Ok (fast_commands cmds (init g))).
  { apply (for_lines_fast limit lines cmds H). rewrite init_start.
    unfold in_range. simpl. lia. }
  split; [exact Hrun |]. unfold main. rewrite Hrun. reflexivity.
Qed.

Lemma run_equals_fast_commands_witness :
  main default_max_str_digits (map lit ["L150"; "X-3"; "R 1_000 "]%string) (Globals 0 0) =
  Ok (zero_count
        (fast_commands [("L"%char, 150); ("X"%char, -3); ("R"%char, 1000)]
           (init (Globals 0 0)))).
Proof.
  apply (run_equals_fast_commands default_max_str_digits
           (map lit ["L150"; "X-3"; "R 1_000 "]%string)
           [("L"%char, 150); ("X"%char, -3); ("R"%char, 1000)] (Globals 0 0)).
  repeat constructor.
  - exists (lit "150"). split; vm_compute; reflexivity.
  - exists (lit "-3"). split; vm_compute; reflexivity.
  - exists (lit " 1_000 "). split; vm_compute; reflexivity.
Defined.

Lemma for_lines_count_bounds limit lines cmds :
  Forall2 (command_of limit) lines cmds ->
  forall g, exists g',
    for_lines limit lines g = Ok g' /\
    zero_count g <= zero_count g' <= zero_count g + step_total cmds.
Proof.
  induction 1 as [| line [c n] lines cmds [rest [-> Hn]] _ IH]; intros g.
  - exists g. split; [reflexivity |]. unfold step_total. simpl. lia.
  - simpl in Hn. cbn [fst for_lines].
    rewrite (loop_body_cons limit c rest g n Hn). cbn [bind].
    destruct (IH (range_loop n (dir c) g)) as [g' [Hrun Hb]].
    exists g'. split; [exact Hrun |].
    pose proof (unit_steps_count_bounds (Z.to_nat n) (dir c) g) as Hs.
    fold (range_loop n (dir c) g) in Hs.
    change (step_total ((c, n) :: cmds)) with (Z.max 0 n + step_total cmds).
    lia.
Qed.

(** The reported count is never negative and never more than the number of
    unit steps of the input. *)
Theorem answer_bounds limit lines cmds g :
  Forall2 (command_of limit) lines cmds ->
  exists n, main limit lines g = Ok n /\ 0 <= n <= step_total cmds.
Proof.
  intros H. unfold main, run.
  destruct (for_lines_count_bounds limit lines cmds H (init g)) as [g' [Hrun Hb]].
  rewrite Hrun. cbn [bind]. exists (zero_count g'). split; [reflexivity |].
  rewrite init_start in Hb. simpl in Hb. lia.
Qed.

Lemma answer_bounds_witness :
  exists n,
    main default_max_str_digits (map lit ["L51"; "R2"; "L-4"]%string) (Globals 0 0) = Ok n /\
    0 <= n <= step_total [("L"%char, 51); ("R"%char, 2); ("L"%char, -4)].
Proof.
  apply (answer_bounds default_max_str_digits (map lit ["L51"; "R2"; "L-4"]%string)
           [("L"%char, 51); ("R"%char, 2); ("L"%char, -4)] (Globals 0 0)).
  repeat constructor.
  - exists (lit "51"). split; vm_compute; reflexivity.
  - exists (lit "2"). split; vm_compute; reflexivity.
  - exists (lit "-4"). split; vm_compute; reflexivity.
Defined.

(** ** How runs compose *)

Lemma unit_step_add_count k delta g :
  unit_step delta (add_count k g) = add_count k (unit_step delta g).
Proof.
  unfold unit_step, add_count. cbn [dial zero_count].
  destruct (next_dial (dial g) delta =? 0); f_equal; ring.
Qed.

Lemma unit_steps_add_count n k delta g :
  unit_steps n delta (add_count k g) = add_count k (unit_steps n delta g).
Proof.
  revert g. induction n as [| n IH]; intros g; cbn [unit_steps]; [reflexivity |].
  rewrite unit_step_add_count. apply IH.
Qed.

Lemma loop_body_add_count limit line k g :
  loop_body limit line (add_count k g) =
  (g' <- loop_body limit line g ;; Ok (add_count k g')).
Proof.
  unfold loop_body. destruct line as [| c rest]; cbn [getitem0 bind]; [reflexivity |].
  destruct (py_int limit (slice_from1 (c :: rest))) as [n | e]; cbn [bind];
    [| reflexivity].
  unfold range_loop. rewrite unit_steps_add_count. reflexivity.
Qed.

(** The dial's course does not depend on the counter: a run from a counter
    that is [k] higher ends with a counter that is [k] higher. *)
Lemma for_lines_add_count limit lines k :
  forall g,
    for_lines limit lines (add_count k g) =
    (g' <- for_lines limit lines g ;; Ok (add_count k g')).
Proof.
  induction lines as [| line lines IH]; intros g; cbn [for_lines bind];
    [reflexivity |].
  rewrite loop_body_add_count.
  destruct (loop_body limit line g) as [g1 | e]; cbn [bind]; [apply IH | reflexivity].
Qed.

(** When a first part of the input ends with the dial back on 50, the
    answer for the whole input is the sum of the answers for the parts (and
    the whole raises what the second part raises). *)
Theorem answers_add limit part1 part2 g g1 :
  run limit part1 g = Ok g1 -> dial g1 = 50 ->
  main limit (part1 ++ part2) g =
  (n2 <- main limit part2 g ;; Ok (n2 + zero_count g1)).
Proof.
  intros Hrun Hdial. unfold main, run in *.
  rewrite for_lines_app, Hrun. cbn [bind].
  assert (Hg1 : g1 = add_count (zero_count g1) (init g)).
  { rewrite init_start. unfold add_count. cbn [dial zero_count].
    destruct g1 as [d z]. cbn [dial zero_count] in *. subst d. reflexivity. }
  rewrite Hg1 at 1. rewrite for_lines_add_count.
  destruct (for_lines limit part2 (init g)) as [g2 | e]; reflexivity.
Qed.

Lemma answers_add_witness :
  main default_max_str_digits (map lit ["L50"; "R150"]%string ++ example_lines) (Globals 0 0) =
  (n2 <- main default_max_str_digits example_lines (Globals 0 0) ;; Ok (n2 + 2)).
Proof.
  apply (answers_add default_max_str_digits (map lit ["L50"; "R150"]%string)
           example_lines (Globals 0 0) {| dial := 50; zero_count := 2 |}).
  - vm_compute. reflexivity.
  - reflexivity.
Defined.

Lemma range_loop_add a b delta g :
  0 <= a -> 0 <= b ->
  range_loop b delta (range_loop a delta g) = range_loop (a + b) delta g.
Proof.
  intros Ha Hb. unfold range_loop.
  rewrite Z2Nat.inj_add by assumption. symmetry. apply unit_steps_add.
Qed.

(** Two consecutive commands in the same direction act as the one command
    with the sum of their amounts. *)
Theorem same_direction_commands_merge limit line1 line2 line c1 c2 c a b before after g :
  command_of limit line1 (c1, a) -> command_of limit line2 (c2, b) ->
  command_of limit line (c, a + b) ->
  0 <= a -> 0 <= b -> dir c1 = dir c -> dir c2 = dir c ->
  for_lines limit (before ++ line1 :: line2 :: after) g =
  for_lines limit (before ++ line :: after) g.
Proof.
  intros [r1 [-> H1]] [r2 [-> H2]] [r [-> H]] Ha Hb Hd1 Hd2.
  cbn [fst snd] in *. rewrite !for_lines_app.
  destruct (for_lines limit before g) as [g0 | e]; cbn [bind]; [| reflexivity].
  cbn [for_lines].
  rewrite (loop_body_cons limit c1 r1 g0 a H1). cbn [bind].
  rewrite (loop_body_cons limit c2 r2 _ b H2). cbn [bind].
  rewrite (loop_body_cons limit c r g0 (a + b) H). cbn [bind].
  rewrite Hd1, Hd2, (range_loop_add a b (dir c) g0 Ha Hb). reflexivity.
Qed.

Lemma same_direction_commands_merge_witness :
  for_lines default_max_str_digits ([lit "L7"] ++ lit "R30" :: lit "X45" :: [lit "L1"])
    {| dial := 50; zero_count := 0 |} =
  for_lines default_max_str_digits ([lit "L7"] ++ lit "R75" :: [lit "L1"])
    {| dial := 50; zero_count := 0 |}.
Proof.
  apply (same_direction_commands_merge default_max_str_digits
           (lit "R30") (lit "X45") (lit "R75") "R"%char "X"%char "R"%char 30 45
           [lit "L7"] [lit "L1"] {| dial := 50; zero_count := 0 |}).
  - exists (lit "30"). split; vm_compute; reflexivity.
  - exists (lit "45"). split; vm_compute; reflexivity.
  - exists (lit "75"). split; vm_compute; reflexivity.
  - lia.
  - lia.
  - reflexivity.
  - reflexivity.
Defined.

(** ** Laws of [int()] as the script uses it *)

Lemma underscore_not_digit u : is_underscore u = true -> is_digit u = false.
Proof.
  intros Hu. destruct (is_digit u) eqn:E; [| reflexivity].
  rewrite (digit_not_underscore u E) in Hu. discriminate.
Qed.

Lemma more_digits_value b k :
  digit_groups b k ->
  forall post acc n, stops post ->
    more_digits (tl b ++ post) acc n =
    Some (fold_left (fun a c => 10 * a + digit_val c) (filter is_digit (tl b)) acc,
          (n + k - 1)%nat, post).
Proof.
  induction 1 as [c Hc | c s k Hc Hs IH | c u s k Hc Hu Hs IH];
    intros post acc n Hpost; cbn [tl].
  - cbn [app filter fold_left]. replace (n + 1 - 1)%nat with n by lia.
    destruct post as [| r post]; cbn [more_digits]; [reflexivity |].
    destruct Hpost as [-> ->]. reflexivity.
  - destruct (digit_groups_head _ _ Hs) as [d [s' [-> [Hd Hk]]]].
    cbn [app more_digits filter]. rewrite Hd. cbn [fold_left].
    cbn [tl] in IH. rewrite (IH post _ (S n) Hpost). do 3 f_equal. lia.
  - destruct (digit_groups_head _ _ Hs) as [d [s' [-> [Hd Hk]]]].
    cbn [app more_digits filter].
    rewrite (underscore_not_digit u Hu), Hu, Hd. cbn [fold_left].
    cbn [tl] in IH. rewrite (IH post _ (S n) Hpost). do 3 f_equal. lia.
Qed.

Lemma read_digits_value body n post :
  digit_groups body n -> stops post ->
  read_digits (body ++ post) = Some (decimal (filter is_digit body), n, post).
Proof.
  intros Hg Hpost. destruct (digit_groups_head _ _ Hg) as [c [b [-> [Hc Hn]]]].
  cbn [app read_digits filter]. rewrite Hc.
  pose proof (more_digits_value _ _ Hg post (digit_val c) 1%nat Hpost) as H.
  cbn [tl] in H. rewrite H. unfold decimal. cbn [fold_left].
  rewrite Z.mul_0_r, Z.add_0_l. do 3 f_equal. lia.
Qed.

(** What [int()] returns on a literal: the decimal value of its digit
    characters, underscores and surrounding white space ignored, negated
    under a minus sign. *)
Theorem py_int_literal_value limit pre sgn body post n :
  spaces pre -> sign sgn -> digit_groups body n ->
  too_many_digits limit n = false -> spaces post ->
  py_int limit (pre ++ sgn ++ body ++ post) = Ok (literal_value sgn body).
Proof.
  intros Hpre Hsgn Hg Hlim Hpost.
  pose proof (read_digits_value body n post Hg (spaces_stops _ Hpost)) as Hdig.
  destruct (digit_groups_head _ _ Hg) as [c [b [Hbody [Hc Hn]]]].
  apply skip_spaces_nil in Hpost.
  unfold py_int. rewrite (skip_spaces_app _ _ Hpre).
  destruct Hsgn as [-> | [-> | ->]].
  - cbn [app]. rewrite Hbody at 1 2. cbn [app skip_spaces read_sign].
    rewrite (digit_not_space c Hc). cbn [read_sign].
    rewrite (digit_not_minus c Hc), (digit_not_plus c Hc).
    change (c :: b ++ post) with ((c :: b) ++ post). rewrite <- Hbody.
    cbv beta iota. rewrite Hdig, Hlim, Hpost. reflexivity.
  - change (skip_spaces (lit "+" ++ body ++ post)) with ("+"%char :: body ++ post).
    change (read_sign ("+"%char :: body ++ post)) with (false, body ++ post).
    cbv beta iota. rewrite Hdig, Hlim, Hpost. reflexivity.
  - change (skip_spaces (lit "-" ++ body ++ post)) with ("-"%char :: body ++ post).
    change (read_sign ("-"%char :: body ++ post)) with (true, body ++ post).
    cbv beta iota. rewrite Hdig, Hlim, Hpost. reflexivity.
Qed.

Lemma py_int_literal_value_witness :
  py_int default_max_str_digits (lit " " ++ lit "-" ++ lit "1_02" ++ lit "  ") = Ok (-102).
Proof.
  apply (py_int_literal_value default_max_str_digits
           (lit " ") (lit "-") (lit "1_02") (lit "  ") 3).
  - repeat constructor.
  - right. right. reflexivity.
  - apply dg_under; [reflexivity | reflexivity |].
    apply dg_digit; [reflexivity |]. apply dg_last. reflexivity.
  - reflexivity.
  - repeat constructor.
Defined.

Lemma more_digits_app_upto len :
  forall s acc n post,
    (List.length s <= len)%nat -> stops post ->
    more_digits (s ++ post) acc n =
    match more_digits s acc n with
    | Some (v, m, rest) => Some (v, m, rest ++ post)
    | None => None
    end.
Proof.
  assert (Hnil : forall acc n post, stops post ->
            more_digits post acc n = Some (acc, n, post)).
  { intros acc n [| r post] Hpost; cbn [more_digits]; [reflexivity |].
    destruct Hpost as [-> ->]. reflexivity. }
  induction len as [| len IH]; intros s acc n post Hlen Hpost.
  - destruct s; [| simpl in Hlen; lia]. cbn [app more_digits].
    apply Hnil, Hpost.
  - destruct s as [| d s']; [cbn [app more_digits]; apply Hnil, Hpost |].
    simpl in Hlen. cbn [app more_digits].
    destruct (is_digit d) eqn:Hd; [apply IH; [lia | exact Hpost] |].
    destruct (is_underscore d) eqn:Hu; [| reflexivity].
    destruct s' as [| d' s'']; cbn [app].
    + destruct post as [| r post]; [reflexivity |].
      destruct Hpost as [-> _]. reflexivity.
    + simpl in Hlen. destruct (is_digit d'); [| reflexivity].
      apply IH; [lia | exact Hpost].
Qed.

Lemma read_digits_app s post :
  stops post ->
  read_digits (s ++ post) =
  match read_digits s with
  | Some (v, m, rest) => Some (v, m, rest ++ post)
  | None => None
  end.
Proof.
  intros Hpost. destruct s as [| c s]; cbn [app read_digits].
  - destruct post as [| r post]; cbn [read_digits]; [reflexivity |].
    destruct Hpost as [-> _]. reflexivity.
  - destruct (is_digit c); [| reflexivity].
    apply (more_digits_app_upto (List.length s)); [lia | exact Hpost].
Qed.

Lemma skip_spaces_app_r s post :
  spaces post ->
  skip_spaces (s ++ post) =
  match skip_spaces s with
  | [] => []
  | c :: t => (c :: t) ++ post
  end.
Proof.
  intros Hpost. induction s as [| c s IH]; cbn [app skip_spaces].
  - apply skip_spaces_nil, Hpost.
  - destruct (is_space c); [exact IH | reflexivity].
Qed.

Lemma py_int_app_spaces limit s post :
  spaces post -> py_int limit (s ++ post) = py_int limit s.
Proof.
  intros Hpost. unfold py_int. rewrite (skip_spaces_app_r s post Hpost).
  destruct (skip_spaces s) as [| c t]; [reflexivity |].
  assert (Hsign : read_sign ((c :: t) ++ post) =
                  (fst (read_sign (c :: t)), snd (read_sign (c :: t)) ++ post)).
  { cbn [app read_sign].
    destruct (Ascii.eqb c "-"); [reflexivity |].
    destruct (Ascii.eqb c "+"); reflexivity. }
  rewrite Hsign. destruct (read_sign (c :: t)) as [neg body]. cbn [fst snd].
  rewrite (read_digits_app body post (spaces_stops _ Hpost)).
  destruct (read_digits body) as [[[v n] rest] |]; [| reflexivity].
  destruct (too_many_digits limit n); [reflexivity |].
  rewrite (skip_spaces_app_r rest post Hpost).
  destruct (skip_spaces rest); reflexivity.
Qed.

(** White space around the amount changes nothing: the line gives the same
    amount, or raises all the same, as the line without it. *)
Theorem amount_ignores_spaces limit c pre s post g :
  spaces pre -> spaces post ->
  py_int limit (pre ++ s ++ post) = py_int limit s /\
  loop_body limit (c :: pre ++ s ++ post) g = loop_body limit (c :: s) g.
Proof.
  intros Hpre Hpost.
  assert (H : py_int limit (pre ++ s ++ post) = py_int limit s).
  { rewrite <- (py_int_app_spaces limit s post Hpost).
    unfold py_int. rewrite (skip_spaces_app _ _ Hpre). reflexivity. }
  split; [exact H |].
  unfold loop_body. cbn [getitem0 bind slice_from1 tl]. rewrite H. reflexivity.
Qed.

Lemma amount_ignores_spaces_witness :
  loop_body default_max_str_digits ("L"%char :: lit " " ++ lit "50" ++ lit "  ")
    {| dial := 50; zero_count := 0 |} =
  loop_body default_max_str_digits ("L"%char :: lit "50")
    {| dial := 50; zero_count := 0 |}.
Proof.
  apply (amount_ignores_spaces default_max_str_digits "L"%char
           (lit " ") (lit "50") (lit "  ") {| dial := 50; zero_count := 0 |});
    repeat constructor.
Defined.

Lemma more_digits_nonneg_upto len :
  forall s acc n v m rest,
    (List.length s <= len)%nat -> 0 <= acc ->
    more_digits s acc n = Some (v, m, rest) -> 0 <= v.
Proof.
  induction len as [| len IH]; intros s acc n v m rest Hlen Hacc Hrun.
  - destruct s; [| simpl in Hlen; lia]. cbn [more_digits] in Hrun.
    injection Hrun as <- _ _. exact Hacc.
  - destruct s as [| d s']; cbn [more_digits] in Hrun.
    + injection Hrun as <- _ _. exact Hacc.
    + simpl in Hlen. destruct (is_digit d) eqn:Hd.
      * pose proof (digit_val_range d Hd).
        refine (IH s' _ _ _ _ _ _ _ Hrun); lia.
      * destruct (is_underscore d).
        -- destruct s' as [| d' s'']; [discriminate |]. simpl in Hlen.
           destruct (is_digit d') eqn:Hd'; [| discriminate].
           pose proof (digit_val_range d' Hd').
           refine (IH s'' _ _ _ _ _ _ _ Hrun); lia.
        -- injection Hrun as <- _ _. exact Hacc.
Qed.

Lemma py_int_digit_head limit d t :
  is_digit d = true ->
  py_int limit (d :: t) =
  match more_digits t (digit_val d) 1 with
  | None => Raise ValueError
  | Some (v, n, rest) =>
      if too_many_digits limit n then Raise ValueError
      else
        match skip_spaces rest with
        | [] => Ok v
        | _ :: _ => Raise ValueError
        end
  end.
Proof.
  intros Hd. unfold py_int. cbn [skip_spaces]. rewrite (digit_not_space d Hd).
  cbn [read_sign]. rewrite (digit_not_minus d Hd), (digit_not_plus d Hd).
  cbv beta iota. cbn [read_digits]. rewrite Hd. reflexivity.
Qed.

(** Without a sign, [int()] never returns a negative number. *)
Lemma py_int_unsigned_nonneg limit d t n :
  is_digit d = true -> py_int limit (d :: t) = Ok n -> 0 <= n.
Proof.
  intros Hd. rewrite (py_int_digit_head limit d t Hd).
  destruct (more_digits t (digit_val d) 1) as [[[v m] rest] |] eqn:E;
    [| discriminate].
  destruct (too_many_digits limit m); [discriminate |].
  destruct (skip_spaces rest); [| discriminate]. intros [= <-].
  pose proof (digit_val_range d Hd).
  refine (more_digits_nonneg_upto (List.length t) t _ _ _ _ _ _ _ E); lia.
Qed.

Lemma py_int_signed limit d t :
  is_digit d = true ->
  py_int limit ("+"%char :: d :: t) = py_int limit (d :: t) /\
  py_int limit ("-"%char :: d :: t) = (n <- py_int limit (d :: t) ;; Ok (- n)).
Proof.
  intros Hd. rewrite (py_int_digit_head limit d t Hd). unfold py_int.
  change (skip_spaces ("+"%char :: d :: t)) with ("+"%char :: d :: t).
  change (skip_spaces ("-"%char :: d :: t)) with ("-"%char :: d :: t).
  change (read_sign ("+"%char :: d :: t)) with (false, d :: t).
  change (read_sign ("-"%char :: d :: t)) with (true, d :: t).
  cbv beta iota. cbn [read_digits]. rewrite Hd.
  destruct (more_digits t (digit_val d) 1) as [[[v m] rest] |];
    [| split; reflexivity].
  destruct (too_many_digits limit m); [split; reflexivity |].
  destruct (skip_spaces rest); split; reflexivity.
Qed.

(** A sign directly before the digits: with a plus the command is the
    unsigned command; with a minus it raises what the unsigned command
    raises and otherwise leaves the dial and the counter as they were. *)
Theorem signed_amount limit c d t g :
  is_digit d = true ->
  loop_body limit (c :: "+"%char :: d :: t) g = loop_body limit (c :: d :: t) g /\
  loop_body limit (c :: "-"%char :: d :: t) g =
    (_ <- loop_body limit (c :: d :: t) g ;; Ok g).
Proof.
  intros Hd. destruct (py_int_signed limit d t Hd) as [Hplus Hminus].
  unfold loop_body. cbn [getitem0 bind slice_from1 tl].
  rewrite Hplus, Hminus. split; [reflexivity |].
  destruct (py_int limit (d :: t)) as [n | e] eqn:E; cbn [bind]; [| reflexivity].
  pose proof (py_int_unsigned_nonneg limit d t n Hd E).
  rewrite range_loop_nonpositive by lia. reflexivity.
Qed.

Lemma signed_amount_witness :
  loop_body default_max_str_digits (lit "R-250") {| dial := 50; zero_count := 0 |} =
  (_ <- loop_body default_max_str_digits (lit "R250") {| dial := 50; zero_count := 0 |} ;;
   Ok {| dial := 50; zero_count := 0 |}).
Proof.
  apply (signed_amount default_max_str_digits "R"%char "2"%char (lit "50")
           {| dial := 50; zero_count := 0 |}).
  reflexivity.
Defined.

Lemma too_many_digits_mono limit n m :
  (n <= m)%nat -> too_many_digits limit m = false -> too_many_digits limit n = false.
Proof.
  unfold too_many_digits. intros Hnm H.
  destruct (Nat.ltb_spec 640 n), (Nat.ltb_spec 0 limit), (Nat.ltb_spec limit n);
    try reflexivity.
  destruct (Nat.ltb_spec 640 m), (Nat.ltb_spec limit m); try discriminate; lia.
Qed.

Lemma decimal_leading_zeros zeros ds :
  Forall (fun z => z = "0"%char) zeros -> decimal (zeros ++ ds) = decimal ds.
Proof.
  intros H. unfold decimal. rewrite fold_left_app. f_equal.
  induction H as [| z zeros -> _ IH]; [reflexivity |].
  cbn [fold_left]. exact IH.
Qed.

(** Zeros before the digits change nothing: a valid zero-padded line is the
    command of the line without the padding. *)
Theorem leading_zeros_ignored limit c zeros ds g :
  Forall (fun z => z = "0"%char) zeros -> ds <> [] ->
  valid_line limit (c :: zeros ++ ds) = true ->
  loop_body limit (c :: zeros ++ ds) g = loop_body limit (c :: ds) g.
Proof.
  intros Hz Hne Hvalid.
  destruct (valid_line_inv _ _ Hvalid) as [c' [ds' [[= <- <-] [Hne' [Hdig Hlim]]]]].
  rewrite forallb_app in Hdig. apply andb_true_iff in Hdig as [_ Hds].
  assert (Hlim' : too_many_digits limit (List.length ds) = false).
  { assert (Hlen : (List.length ds <= List.length (zeros ++ ds))%nat)
      by (rewrite length_app; lia).
    apply (too_many_digits_mono limit _ _ Hlen Hlim). }
  assert (Hall : forallb is_digit (zeros ++ ds) = true).
  { rewrite forallb_app. apply andb_true_iff. split; [| exact Hds].
    apply forallb_forall. intros z Hin. rewrite Forall_forall in Hz.
    rewrite (Hz z Hin). reflexivity. }
  rewrite (loop_body_cons limit c _ g _ (py_int_digits limit _ Hne' Hall Hlim)).
  rewrite (loop_body_cons limit c _ g _ (py_int_digits limit _ Hne Hds Hlim')).
  rewrite (decimal_leading_zeros zeros ds Hz). reflexivity.
Qed.

Lemma leading_zeros_ignored_witness :
  loop_body default_max_str_digits ("L"%char :: lit "00" ++ lit "50")
    {| dial := 50; zero_count := 0 |} =
  loop_body default_max_str_digits ("L"%char :: lit "50")
    {| dial := 50; zero_count := 0 |}.
Proof.
  apply (leading_zeros_ignored default_max_str_digits "L"%char (lit "00") (lit "50")
           {| dial := 50; zero_count := 0 |}).
  - repeat constructor.
  - discriminate.
  - reflexivity.
Defined.

(** ** The first bad line *)

(** A run stops at its first bad line with that line's exception, whatever
    follows it: no answer is reported. *)
Theorem first_bad_line_raises limit before line after g :
  Forall (fun l => ~ bad_line limit l) before -> bad_line limit line ->
  main limit (before ++ line :: after) g = Raise (exception_of line).
Proof.
  intros Hgood Hbad. unfold main, run. rewrite for_lines_app.
  destruct (for_lines limit before (init g)) as [g1 | e] eqn:E; cbn [bind].
  - cbn [for_lines].
    destruct (proj2 (loop_body_raises_iff limit line g1) Hbad) as [e He].
    rewrite He, (loop_body_exception limit line g1 e He). reflexivity.
  - exfalso.
    assert (Hex : Exists (bad_line limit) before).
    { apply (for_lines_raises_iff limit before (init g)). exists e. exact E. }
    apply Exists_exists in Hex as [l [Hin Hl]].
    rewrite Forall_forall in Hgood. exact (Hgood l Hin Hl).
Qed.

Lemma first_bad_line_raises_witness :
  main default_max_str_digits ([lit "L50"] ++ lit "R" :: [lit ""]) (Globals 0 0) =
  Raise ValueError.
Proof.
  apply (first_bad_line_raises default_max_str_digits [lit "L50"] (lit "R") [lit ""]
           (Globals 0 0)).
  - constructor; [| constructor]. intros [H | H]; [discriminate H |].
    apply H. apply py_int_accepts_iff. exists 50. reflexivity.
  - right. intros H. apply py_int_accepts_iff in H. destruct H as [z Hz].
    discriminate Hz.
Defined.

(** ** Left and right are mirror images *)

Lemma unit_step_mirror delta g :
  unit_step (- delta) (mirror g) = mirror (unit_step delta g).
Proof.
  unfold unit_step, mirror, next_dial. cbn [dial zero_count].
  assert (Hd : ((100 - dial g) mod 100 + - delta + 100) mod 100 =
               (100 - (dial g + delta + 100) mod 100) mod 100).
  { Z.div_mod_to_equations. lia. }
  rewrite Hd.
  destruct (Z.eqb_spec ((100 - (dial g + delta + 100) mod 100) mod 100) 0) as [E | E];
    destruct (Z.eqb_spec ((dial g + delta + 100) mod 100) 0) as [E' | E'];
    try reflexivity; exfalso; revert E E'; Z.div_mod_to_equations; lia.
Qed.

Lemma unit_steps_mirror n delta g :
  unit_steps n (- delta) (mirror g) = mirror (unit_steps n delta g).
Proof.
  revert g. induction n as [| n IH]; intros g; cbn [unit_steps]; [reflexivity |].
  rewrite unit_step_mirror. apply IH.
Qed.

Lemma loop_body_mirror limit line line' g :
  opposite line line' ->
  loop_body limit line' (mirror g) = (g' <- loop_body limit line g ;; Ok (mirror g')).
Proof.
  unfold opposite, loop_body.
  destruct line as [| c rest], line' as [| c' rest']; try contradiction;
    [reflexivity |].
  intros [Hdir ->]. cbn [getitem0 bind slice_from1 tl].
  destruct (py_int limit rest) as [n | e]; cbn [bind]; [| reflexivity].
  unfold range_loop. rewrite Hdir, unit_steps_mirror. reflexivity.
Qed.

Lemma for_lines_mirror limit lines lines' :
  Forall2 opposite lines lines' ->
  forall g,
    for_lines limit lines' (mirror g) =
    (g' <- for_lines limit lines g ;; Ok (mirror g')).
Proof.
  induction 1 as [| line line' lines lines' Hopp _ IH]; intros g;
    cbn [for_lines bind]; [reflexivity |].
  rewrite (loop_body_mirror limit line line' g Hopp).
  destruct (loop_body limit line g) as [g1 | e]; cbn [bind]; [apply IH | reflexivity].
Qed.

(** Turning every command the other way gives the same answer (and the same
    exception): the start, 50, is its own mirror image. *)
Theorem opposite_input_same_answer limit lines lines' g :
  Forall2 opposite lines lines' ->
  main limit lines' g = main limit lines g.
Proof.
  intros H. unfold main, run.
  change (init g) with (mirror (init g)) at 1.
  rewrite (for_lines_mirror limit lines lines' H).
  destruct (for_lines limit lines (init g)) as [g' | e]; reflexivity.
Qed.

Lemma opposite_input_same_answer_witness :
  main default_max_str_digits (map lit ["R68"; "X30"; "L48"; "R-5"; "L"]%string) (Globals 0 0) =
  main default_max_str_digits (map lit ["L68"; "L30"; "R48"; "L-5"; "R"]%string) (Globals 0 0).
Proof.
  apply (opposite_input_same_answer default_max_str_digits
           (map lit ["L68"; "L30"; "R48"; "L-5"; "R"]%string)
           (map lit ["R68"; "X30"; "L48"; "R-5"; "L"]%string) (Globals 0 0)).
  repeat constructor.
Defined.
